(** * Chameleon / Imposter party game: the deterministic seed engine

    A shallow embedding of [script.js]: the djb2 rolling hash
    ([seedToNumber]), the xorshift-multiply finalizer ([seededRandom]),
    the round clock ([getCurrentRoundNumber], [getSecondsUntilNextRound])
    and the game state resolver ([getImposterPlayer], [getSecretWord]),
    followed by the page logic built on them ([revealRole], [updateTimer],
    [updateTotalPlayers]), with the page as a record of the texts and
    classes the script writes.

    JavaScript Numbers are IEEE 754 binary64 values.  Where the script
    keeps a Number that is an integer of magnitude below 2^53 (hashes,
    character codes, clock readings), the Number is written as the [Z] it
    denotes: on such values [+], [-], [%], [Math.floor] of a quotient and
    the 32-bit operators are exact.  Where the script leaves the integers
    (the division by 2^32, the product with the slot count, [Math.floor]
    of that product and the addition of 1 to it), the value is a
    [spec_float] and the operators are the binary64 operations of
    [SpecFloat] (precision 53, emax 1024), rounding included. *)

From Stdlib Require Import ZArith QArith List Lia Bool Ascii String.
From Stdlib Require Import DecimalString DecimalZ DecimalPos.
From Stdlib Require Import Floats.SpecFloat.
Import ListNotations.

Local Open Scope Z_scope.

(** ** JavaScript primitives *)

Module JS.

(** A JavaScript string is a sequence of UTF-16 code units; [charCodeAt]
    returns the unit at an index, a Number in [0, 65535]. *)
Definition jsstring := list Z.

Definition is_code_unit (c : Z) : Prop := 0 <= c < 65536.

Definition well_formed (s : jsstring) : Prop := Forall is_code_unit s.

(** A string literal of the script (all literals are ASCII). *)
Definition lit (s : string) : jsstring :=
  map (fun a => Z.of_N (N_of_ascii a)) (list_ascii_of_string s).

(** String concatenation, the script's [+] on strings. *)
Definition concat (a b : jsstring) : jsstring := a ++ b.

(** ToUint32 and ToInt32 of ECMAScript, on an integral Number. *)
Definition ToUint32 (n : Z) : Z := n mod 4294967296.

Definition ToInt32 (n : Z) : Z :=
  let u := n mod 4294967296 in
  if 2147483648 <=? u then u - 4294967296 else u.

(** [a << n]: ToInt32 of the left operand, shift count masked to five
    bits, result a signed 32-bit integer. *)
Definition shl (a n : Z) : Z :=
  ToInt32 (Z.shiftl (ToInt32 a) (Z.land (ToUint32 n) 31)).

(** [a >>> n]: ToUint32 of the left operand, zero-filling shift, result
    an unsigned 32-bit integer. *)
Definition ushr (a n : Z) : Z :=
  Z.shiftr (ToUint32 a) (Z.land (ToUint32 n) 31).

(** [a ^ b]: both operands through ToInt32, result a signed 32-bit
    integer. *)
Definition xor (a b : Z) : Z :=
  ToInt32 (Z.lxor (ToInt32 a) (ToInt32 b)).

(** [Math.imul(a, b)]: the product of the ToUint32 operands modulo 2^32,
    read back as a signed 32-bit integer. *)
Definition imul (a b : Z) : Z :=
  let product := (ToUint32 a * ToUint32 b) mod 4294967296 in
  if 2147483648 <=? product then product - 4294967296 else product.

(** The magnitude below which every integer is a binary64 value and
    integer arithmetic on Numbers is exact. *)
Definition safe_integer (n : Z) : Prop := - 2 ^ 53 < n < 2 ^ 53.

(** *** Binary64 Numbers *)

Definition number := spec_float.

(** The binary64 nearest to an integer (exact on safe integers). *)
Definition of_Z (n : Z) : number := binary_normalize 53 1024 n 0 false.

(** The operators [*], [/] and [+] on Numbers. *)
Definition mul (x y : number) : number := SFmul 53 1024 x y.

Definition div (x y : number) : number := SFdiv 53 1024 x y.

Definition add (x y : number) : number := SFadd 53 1024 x y.

(** [Math.floor]: the largest integral Number not above the argument;
    zeros, infinities, NaN and Numbers that are already integral are
    returned unchanged. *)
Definition floor (x : number) : number :=
  match x with
  | S754_finite s m e =>
      if 0 <=? e then x
      else of_Z (cond_Zopp s (Zpos m) / 2 ^ (- e))
  | _ => x
  end.

(** The rational a finite Number denotes. *)
Definition to_Q (x : number) : option Q :=
  match x with
  | S754_zero _ => Some 0%Q
  | S754_finite s m e =>
      Some (if 0 <=? e then inject_Z (cond_Zopp s (Zpos m) * 2 ^ e)
            else Qmake (cond_Zopp s (Zpos m)) (Z.to_pos (2 ^ (- e))))
  | _ => None
  end.

(** The integer an integral finite Number denotes; [None] for a Number
    with a fractional part, an infinity or NaN. *)
Definition to_Z (x : number) : option Z :=
  match x with
  | S754_zero _ => Some 0
  | S754_finite s m e =>
      if 0 <=? e then Some (cond_Zopp s (Zpos m) * 2 ^ e)
      else if Zpos m mod 2 ^ (- e) =? 0
           then Some (cond_Zopp s (Zpos m / 2 ^ (- e)))
           else None
  | _ => None
  end.

(** [a[i]] on an array: the element at an index that is an integral
    Number within the bounds, [undefined] ([None]) otherwise. *)
Definition index {A : Type} (a : list A) (i : number) : option A :=
  match to_Z i with
  | Some k => if 0 <=? k then nth_error a (Z.to_nat k) else None
  | None => None
  end.

End JS.

(** ** The script's global scope *)

(** [wordList]: the fifty words, in document order. *)
Definition wordList : list string :=
  [ "volcano"; "library"; "pizza"; "dinosaur"; "astronaut";
    "rainbow"; "penguin"; "chocolate"; "submarine"; "guitar";
    "elephant"; "hurricane"; "treasure"; "jungle"; "wizard";
    "pyramid"; "dolphin"; "tornado"; "castle"; "robot";
    "butterfly"; "mountain"; "spaceship"; "dragon"; "unicorn";
    "pirate"; "hospital"; "detective"; "skeleton"; "flamingo";
    "waterfall"; "superhero"; "campfire"; "kangaroo"; "avalanche";
    "lightning"; "mushroom"; "scarecrow"; "telescope"; "octopus";
    "helicopter"; "goldfish"; "firework"; "nightmare"; "mermaid";
    "thunderstorm"; "crocodile"; "sunflower"; "jellyfish"; "snowman" ]%string.

Definition ROUND_LENGTH_SECONDS : Z := 120.

(** What a call of a function of the script can observe besides its
    arguments: the mutable global [TOTAL_PLAYERS] and the clock read by
    [Date.now()] (milliseconds since the epoch).  Every function of the
    script takes the world it runs in as its first argument, whether or
    not its body reads it. *)
Record world := { TOTAL_PLAYERS : JS.number; Date_now : Z }.

(** The world when the script is loaded at clock reading [now]:
    [let TOTAL_PLAYERS = 6]. *)
Definition initial_world (now : Z) : world :=
  {| TOTAL_PLAYERS := JS.of_Z 6; Date_now := now |}.

(** ** Hash core *)

(** The loop body of [seedToNumber]:
    [hash = ((hash << 5) + hash + seedString.charCodeAt(i)) >>> 0]. *)
Definition seedToNumber_step (hash c : Z) : Z :=
  JS.ushr (JS.shl hash 5 + hash + c) 0.

(** [seedToNumber]: [hash] starts at 5381 and the loop visits the code
    units in index order. *)
Definition seedToNumber (w : world) (seedString : JS.jsstring) : Z :=
  fold_left seedToNumber_step seedString 5381.

(** The seven mixing statements of [seededRandom], on the Number [hash]. *)
Definition seededRandom_mix (hash : Z) : Z :=
  let hash := JS.xor hash (JS.ushr hash 17) in
  let hash := JS.ushr (JS.imul hash 0xed5ad4bb) 0 in
  let hash := JS.xor hash (JS.ushr hash 11) in
  let hash := JS.ushr (JS.imul hash 0xac4c1b51) 0 in
  let hash := JS.xor hash (JS.ushr hash 15) in
  let hash := JS.ushr (JS.imul hash 0x31848bab) 0 in
  let hash := JS.xor hash (JS.ushr hash 14) in
  hash.

(** [seededRandom]: hash the seed, mix, and return
    [(hash >>> 0) / 4294967296]. *)
Definition seededRandom (w : world) (seedString : JS.jsstring) : JS.number :=
  let hash := seedToNumber w seedString in
  let hash := seededRandom_mix hash in
  JS.div (JS.of_Z (JS.ushr hash 0)) (JS.of_Z 4294967296).

(** ** Round clock *)

(** [Math.floor(Date.now() / 1000)]. *)
Definition currentUnixSeconds (w : world) : Z := Date_now w / 1000.

(** The body of [getCurrentRoundNumber] at window length [W] and clock
    reading [t] seconds: [Math.floor(t / W)]. *)
Definition roundNumberAt (W t : Z) : Z := t / W.

(** The body of [getSecondsUntilNextRound] at window length [W] and clock
    reading [t] seconds: [W - t % W], with JavaScript's truncating [%]. *)
Definition secondsUntilNextRoundAt (W t : Z) : Z :=
  let secondsIntoRound := Z.rem t W in
  W - secondsIntoRound.

Definition getCurrentRoundNumber (w : world) : Z :=
  roundNumberAt ROUND_LENGTH_SECONDS (currentUnixSeconds w).

Definition getSecondsUntilNextRound (w : world) : Z :=
  secondsUntilNextRoundAt ROUND_LENGTH_SECONDS (currentUnixSeconds w).

(** ** Game logic *)

(** [getImposterPlayer]: [1 + Math.floor(seededRandom(seed) * TOTAL_PLAYERS)]
    with [seed = roomCode + "-imposter-" + roundKey]. *)
Definition getImposterPlayer (w : world) (roomCode roundKey : JS.jsstring)
  : JS.number :=
  let seed := JS.concat (JS.concat roomCode (JS.lit "-imposter-")) roundKey in
  JS.add (JS.of_Z 1) (JS.floor (JS.mul (seededRandom w seed) (TOTAL_PLAYERS w))).

(** The index computed by [getSecretWord]:
    [Math.floor(seededRandom(seed) * wordList.length)] with
    [seed = roomCode + "-word-" + roundKey]. *)
Definition wordIndex (w : world) (roomCode roundKey : JS.jsstring) : JS.number :=
  let seed := JS.concat (JS.concat roomCode (JS.lit "-word-")) roundKey in
  JS.floor (JS.mul (seededRandom w seed)
                   (JS.of_Z (Z.of_nat (List.length wordList)))).

(** [getSecretWord]: [wordList[wordIndex]]; [None] is [undefined]. *)
Definition getSecretWord (w : world) (roomCode roundKey : JS.jsstring)
  : option string :=
  JS.index wordList (wordIndex w roomCode roundKey).

(** [updateTotalPlayers]: [TOTAL_PLAYERS = parseInt(slider.value, 10)]; the
    parsed Number is the argument [parsed], the rest of the function only
    writes to the page. *)
Definition updateTotalPlayers (parsed : JS.number) (w : world) : world :=
  {| TOTAL_PLAYERS := parsed; Date_now := Date_now w |}.

(** ** Reference definitions of the specification *)

(** The reference djb2 fold: start at 5381, then
    [accumulator = (accumulator * 33 + c) mod 2^32] for each character. *)
Definition djb2_reference (seed : JS.jsstring) : Z :=
  fold_left (fun accumulator c => (accumulator * 33 + c) mod 2 ^ 32) seed 5381.

(** The reference finalizer: every intermediate an unsigned 32-bit
    integer, every multiply taken modulo 2^32. *)
Definition finalizer_reference (h : Z) : Z :=
  let h := Z.lxor h (Z.shiftr h 17) in
  let h := (h * 0xed5ad4bb) mod 2 ^ 32 in
  let h := Z.lxor h (Z.shiftr h 11) in
  let h := (h * 0xac4c1b51) mod 2 ^ 32 in
  let h := Z.lxor h (Z.shiftr h 15) in
  let h := (h * 0x31848bab) mod 2 ^ 32 in
  let h := Z.lxor h (Z.shiftr h 14) in
  h.

(** The reference value of the unit float on [h = seedToNumber(s)]: the
    finalized hash over 4294967296, as an exact rational. *)
Definition seededRandom_reference (h : Z) : Q :=
  finalizer_reference h # 4294967296.

(** ** Rounding to 53 bits, in closed form *)

(** The record left by shifting the exact mantissa [m] right by [n > 0]
    places: the quotient, the last bit shifted out (round bit) and whether
    any lower bit was set (sticky bit). *)
Definition shifted_record (m n : Z) : shr_record :=
  {| shr_m := m / 2 ^ n;
     shr_r := Z.testbit m (n - 1);
     shr_s := negb (m mod 2 ^ (n - 1) =? 0) |}.

(** [m / 2^n] rounded to nearest, ties to even. *)
Definition round_shift (m n : Z) : Z :=
  round_nearest_even (m / 2 ^ n) (loc_of_shr_record (shifted_record m n)).

(** ** Host functions used by the page logic *)

Module Host.

(** [String(n)] and [n.toString()] on an integral Number of magnitude
    below 10^21 (every round number and every countdown is one): the
    decimal digits, with a leading [-] for a negative Number. *)
Definition String_of_integer (n : Z) : string :=
  NilZero.string_of_int (Z.to_int n).

(** [s.padStart(maxLength, fillString)]: [s] itself when it is long enough
    or the filler is empty, otherwise [s] preceded by the filler repeated
    and cut to the missing length. *)
Definition padStart (s : string) (maxLength : nat) (fillString : string)
  : string :=
  if (maxLength <=? String.length s)%nat then s
  else if (String.length fillString =? 0)%nat then s
  else
    let fillLen := (maxLength - String.length s)%nat in
    (String.substring 0 fillLen
       (String.concat "" (List.repeat fillString fillLen)) ++ s)%string.

(** [isNaN(x)], [x < y] and [x === y] on Numbers. *)
Definition isNaN (x : JS.number) : bool :=
  match x with
  | S754_nan => true
  | _ => false
  end.

Definition lt (x y : JS.number) : bool := SFltb x y.

Definition strict_equal (x y : JS.number) : bool := SFeqb x y.

(** [classList.remove(t1, t2, ...)] and [classList.add(t)] on the token
    list of an element: removal drops every listed token, addition appends
    a token that is not there yet. *)
Definition classList_remove (tokens classList : list string) : list string :=
  filter (fun c => negb (existsb (String.eqb c) tokens)) classList.

Definition classList_add (token : string) (classList : list string)
  : list string :=
  if existsb (String.eqb token) classList then classList
  else classList ++ [token].

End Host.

(** ** The page *)

(** The elements the script writes to: the class list of [resultDiv], the
    value last assigned to the [textContent] of [roleDisplay] (a string of
    code units), of [wordDisplay] ([None] is [undefined]), of [roundInfo]
    and of [countdown]. *)
Record page := {
  resultDiv_classList : list string;
  roleDisplay_text : JS.jsstring;
  wordDisplay_text : option string;
  roundInfo_text : string;
  countdown_text : string
}.

(** What [alert] was called with: ['Please enter a room code.'] or
    [`Please enter a valid player number (1-${TOTAL_PLAYERS}).`], the
    latter kept with the Number it interpolates. *)
Inductive alert_message :=
| Please_enter_a_room_code
| Please_enter_a_valid_player_number (total_players : JS.number).

(** The two literals assigned to [roleDisplay.textContent], as the code
    units of the source text: six units and [" You are the Imposter!"],
    three units and [" You are NOT the Imposter"]. *)
Definition imposter_role_text : JS.jsstring :=
  [0xF0; 0x178; 0x2022; 0xB5; 0xEF; 0xB8] ++ JS.lit " You are the Imposter!".

Definition normal_role_text : JS.jsstring :=
  [0xE2; 0x153; 0x201C] ++ JS.lit " You are NOT the Imposter".

(** [String(roundNumber)] in [revealRole], as a seed component. *)
Definition roundKey (w : world) : JS.jsstring :=
  JS.lit (Host.String_of_integer (getCurrentRoundNumber w)).

(** [revealRole].  The two reads of the form are its arguments: [roomCode]
    is [roomCodeInput.value.trim().toUpperCase()] and [playerNumber] is
    [parseInt(playerNumberInput.value, 10)].  The result is the alert
    raised, if any, and the page left behind. *)
Definition revealRole (w : world) (roomCode : JS.jsstring)
           (playerNumber : JS.number) (p : page)
  : option alert_message * page :=
  match roomCode with
  | [] => (Some Please_enter_a_room_code, p)
  | _ :: _ =>
      if Host.isNaN playerNumber
         || Host.lt playerNumber (JS.of_Z 1)
         || Host.lt (TOTAL_PLAYERS w) playerNumber
      then (Some (Please_enter_a_valid_player_number (TOTAL_PLAYERS w)), p)
      else
        let roundKey := roundKey w in
        let imposterPlayer := getImposterPlayer w roomCode roundKey in
        let secretWord := getSecretWord w roomCode roundKey in
        let classList :=
          Host.classList_remove ["hidden"; "imposter"; "normal"]%string
                                (resultDiv_classList p) in
        if Host.strict_equal playerNumber imposterPlayer
        then (None,
              {| resultDiv_classList := Host.classList_add "imposter" classList;
                 roleDisplay_text := imposter_role_text;
                 wordDisplay_text := Some "Try to blend in!"%string;
                 roundInfo_text := roundInfo_text p;
                 countdown_text := countdown_text p |})
        else (None,
              {| resultDiv_classList := Host.classList_add "normal" classList;
                 roleDisplay_text := normal_role_text;
                 wordDisplay_text := secretWord;
                 roundInfo_text := roundInfo_text p;
                 countdown_text := countdown_text p |})
  end.

(** The three checks of [revealRole] on the player number, as one
    condition. *)
Definition player_number_rejected (w : world) (playerNumber : JS.number) : bool :=
  Host.isNaN playerNumber
  || Host.lt playerNumber (JS.of_Z 1)
  || Host.lt (TOTAL_PLAYERS w) playerNumber.

(** The string [`${minutes}:${seconds.toString().padStart(2, '0')}`] of
    [updateTimer] for a countdown of [secondsRemaining] seconds. *)
Definition timeString (secondsRemaining : Z) : string :=
  let minutes := secondsRemaining / 60 in
  let seconds := Z.rem secondsRemaining 60 in
  (Host.String_of_integer minutes ++ ":" ++
   Host.padStart (Host.String_of_integer seconds) 2 "0")%string.

(** [updateTimer]. *)
Definition updateTimer (w : world) (p : page) : page :=
  let roundNumber := getCurrentRoundNumber w in
  let secondsRemaining := getSecondsUntilNextRound w in
  {| resultDiv_classList := resultDiv_classList p;
     roleDisplay_text := roleDisplay_text p;
     wordDisplay_text := wordDisplay_text p;
     roundInfo_text :=
       ("Round " ++ Host.String_of_integer roundNumber ++
        " (resets every 2 minutes)")%string;
     countdown_text := ("Next round in: " ++ timeString secondsRemaining)%string |}.

(** The one-character string of a decimal digit [d] in [0, 9]. *)
Definition decimal_digit (d : Z) : string :=
  String (ascii_of_N (Z.to_N (48 + d))) "".

(** A page to run the page logic on: the result box hidden, nothing
    written yet. *)
Definition example_page : page :=
  {| resultDiv_classList := ["result"; "hidden"]%string;
     roleDisplay_text := [];
     wordDisplay_text := None;
     roundInfo_text := "";
     countdown_text := "" |}.

(** Proof steps that recur: deciding a boolean comparison whose outcome
    follows from the context. *)
Ltac leb_true :=
  match goal with
  | |- context [?a <=? ?b] =>
      replace (a <=? b) with true by (symmetry; apply Z.leb_le; lia)
  end.

Ltac leb_false :=
  match goal with
  | |- context [?a <=? ?b] =>
      replace (a <=? b) with false by (symmetry; apply Z.leb_gt; lia)
  end.

Ltac leb_true_in H :=
  match type of H with
  | context [?a <=? ?b] =>
      replace (a <=? b) with true in H by (symmetry; apply Z.leb_le; lia)
  end.

Ltac leb_false_in H :=
  match type of H with
  | context [?a <=? ?b] =>
      replace (a <=? b) with false in H by (symmetry; apply Z.leb_gt; lia)
  end.

(** ** Lemmas on the 32-bit primitives *)

Section Int32Facts.

Lemma ToUint32_range n : 0 <= JS.ToUint32 n < 4294967296.
Proof. unfold JS.ToUint32. apply Z.mod_pos_bound. lia. Qed.

Lemma ToInt32_range n : - 2147483648 <= JS.ToInt32 n < 2147483648.
Proof.
  unfold JS.ToInt32.
  pose proof (Z.mod_pos_bound n 4294967296 ltac:(lia)).
  destruct (Z.leb_spec 2147483648 (n mod 4294967296)); lia.
Qed.

Lemma ToInt32_congr n : JS.ToInt32 n mod 4294967296 = n mod 4294967296.
Proof.
  unfold JS.ToInt32.
  destruct (Z.leb_spec 2147483648 (n mod 4294967296)).
  - replace (n mod 4294967296 - 4294967296)
      with (n mod 4294967296 + (-1) * 4294967296) by lia.
    rewrite Z.mod_add by lia. apply Z.mod_mod. lia.
  - apply Z.mod_mod. lia.
Qed.

Lemma ToUint32_ToInt32 n : JS.ToUint32 (JS.ToInt32 n) = JS.ToUint32 n.
Proof. apply ToInt32_congr. Qed.

Lemma ToUint32_small n : 0 <= n < 4294967296 -> JS.ToUint32 n = n.
Proof. intros. unfold JS.ToUint32. apply Z.mod_small. assumption. Qed.

Lemma ushr_0 a : JS.ushr a 0 = JS.ToUint32 a.
Proof. unfold JS.ushr. reflexivity. Qed.

Lemma ushr_range a n : 0 <= JS.ushr a n < 4294967296.
Proof.
  unfold JS.ushr.
  pose proof (ToUint32_range a) as Ha.
  assert (0 <= Z.land (JS.ToUint32 n) 31) as Hs.
  { apply Z.land_nonneg. right. lia. }
  rewrite Z.shiftr_div_pow2 by assumption.
  assert (0 < 2 ^ Z.land (JS.ToUint32 n) 31) by (apply Z.pow_pos_nonneg; lia).
  split.
  - apply Z.div_pos; lia.
  - apply Z.div_lt_upper_bound; nia.
Qed.

Lemma shl_5_congr a : JS.shl a 5 mod 4294967296 = (a * 32) mod 4294967296.
Proof.
  unfold JS.shl. rewrite ToInt32_congr.
  change (Z.land (JS.ToUint32 5) 31) with 5.
  rewrite Z.shiftl_mul_pow2 by lia. change (2 ^ 5) with 32.
  rewrite Z.mul_mod by lia. rewrite ToInt32_congr.
  rewrite <- Z.mul_mod by lia. reflexivity.
Qed.

End Int32Facts.

Create HintDb uint32.

#[local] Hint Resolve ToUint32_range ushr_range : uint32.

(** The loop body computes [hash * 33 + c] modulo 2^32. *)
Lemma seedToNumber_step_spec hash c :
  seedToNumber_step hash c = (hash * 33 + c) mod 2 ^ 32.
Proof.
  unfold seedToNumber_step. rewrite ushr_0. unfold JS.ToUint32.
  change (2 ^ 32) with 4294967296.
  rewrite <- Z.add_assoc, Z.add_mod by lia.
  rewrite shl_5_congr.
  rewrite <- Z.add_mod by lia.
  f_equal. lia.
Qed.

(** The Numbers met inside the loop body stay safe integers, so the
    double-precision additions of the script are exact. *)
Lemma seedToNumber_step_safe hash c :
  0 <= hash < 4294967296 -> JS.is_code_unit c ->
  JS.safe_integer (JS.shl hash 5) /\
  JS.safe_integer (JS.shl hash 5 + hash) /\
  JS.safe_integer (JS.shl hash 5 + hash + c).
Proof.
  intros Hh Hc. unfold JS.is_code_unit in Hc. unfold JS.safe_integer.
  pose proof (ToInt32_range (Z.shiftl (JS.ToInt32 hash) (Z.land (JS.ToUint32 5) 31))) as Hs.
  fold (JS.shl hash 5) in Hs.
  change (2 ^ 53) with 9007199254740992. lia.
Qed.

Lemma seedToNumber_fold_spec s : forall acc,
  fold_left seedToNumber_step s acc =
  fold_left (fun accumulator c => (accumulator * 33 + c) mod 2 ^ 32) s acc.
Proof.
  induction s as [|c s IH]; intros acc; simpl.
  - reflexivity.
  - rewrite seedToNumber_step_spec. apply IH.
Qed.

Lemma djb2_fold_range s : forall acc,
  0 <= acc < 2 ^ 32 ->
  0 <= fold_left (fun accumulator c => (accumulator * 33 + c) mod 2 ^ 32) s acc < 2 ^ 32.
Proof.
  induction s as [|c s IH]; intros acc Hacc; simpl.
  - assumption.
  - apply IH. apply Z.mod_pos_bound. lia.
Qed.

Lemma seedToNumber_range w s : 0 <= seedToNumber w s < 4294967296.
Proof.
  unfold seedToNumber. rewrite seedToNumber_fold_spec.
  change 4294967296 with (2 ^ 32). apply djb2_fold_range. lia.
Qed.

#[local] Hint Resolve seedToNumber_range : uint32.

(** C1 (as amended): for every string, [seedToNumber] is the djb2 fold
    (start at 5381, then [acc := (acc * 33 + c) mod 2^32] for each code unit
    in order) and its value is an integer in [0, 2^32); the empty string
    hashes to 5381 and ["A"] hashes to [5381 * 33 + 65 = 177638]. *)
Theorem seedToNumber_is_djb2 :
  (forall (w : world) (s : JS.jsstring),
      seedToNumber w s = djb2_reference s /\ 0 <= seedToNumber w s < 2 ^ 32) /\
  (forall w, seedToNumber w (JS.lit "") = 5381) /\
  (forall w, seedToNumber w (JS.lit "A") = 177638).
Proof.
  split; [|split; reflexivity].
  intros w s. split.
  - unfold seedToNumber, djb2_reference. apply seedToNumber_fold_spec.
  - apply seedToNumber_range.
Qed.

(** C1 as written fails on its second vector: ["A"] does not hash to
    177658; the fold gives [(5381 * 33 + 65) mod 2^32 = 177638]. *)
Lemma seedToNumber_A_not_177658 :
  ~ ((forall (w : world) (s : JS.jsstring),
         seedToNumber w s = djb2_reference s /\ 0 <= seedToNumber w s < 2 ^ 32) /\
     (forall w, seedToNumber w (JS.lit "") = 5381) /\
     (forall w, seedToNumber w (JS.lit "A") = 177658)).
Proof.
  intros [_ [_ H]]. specialize (H (initial_world 0)).
  vm_compute in H. discriminate H.
Qed.

(** ** The finalizer on unsigned 32-bit integers *)

Lemma lxor_mod32 a b :
  Z.lxor a b mod 2 ^ 32 = Z.lxor (a mod 2 ^ 32) (b mod 2 ^ 32).
Proof.
  apply Z.bits_inj'. intros n Hn. rewrite Z.lxor_spec.
  destruct (Z.lt_ge_cases n 32) as [Hlt | Hge].
  - rewrite !Z.mod_pow2_bits_low by lia. apply Z.lxor_spec.
  - rewrite !Z.mod_pow2_bits_high by lia. reflexivity.
Qed.

Lemma xor_uint32 a b :
  JS.ToUint32 (JS.xor a b) = Z.lxor (JS.ToUint32 a) (JS.ToUint32 b).
Proof.
  unfold JS.xor. rewrite ToUint32_ToInt32. unfold JS.ToUint32.
  change 4294967296 with (2 ^ 32). rewrite lxor_mod32.
  change (2 ^ 32) with 4294967296. rewrite !ToInt32_congr. reflexivity.
Qed.

Lemma shift_count_small k : 0 <= k < 32 -> Z.land (JS.ToUint32 k) 31 = k.
Proof.
  intros Hk. rewrite ToUint32_small by lia.
  change 31 with (Z.ones 5). rewrite Z.land_ones by lia.
  apply Z.mod_small. change (2 ^ 5) with 32. lia.
Qed.

Lemma ushr_uint32 h k :
  0 <= h < 4294967296 -> 0 <= k < 32 -> JS.ushr h k = Z.shiftr h k.
Proof.
  intros Hh Hk. unfold JS.ushr.
  rewrite shift_count_small, ToUint32_small by assumption. reflexivity.
Qed.

(** [hash ^= hash >>> k] on an unsigned [hash], read back unsigned. *)
Lemma mix_xor_step h k :
  0 <= h < 4294967296 -> 0 <= k < 32 ->
  JS.ToUint32 (JS.xor h (JS.ushr h k)) = Z.lxor h (Z.shiftr h k).
Proof.
  intros Hh Hk. rewrite xor_uint32.
  rewrite (ToUint32_small (JS.ushr h k)) by apply ushr_range.
  rewrite ToUint32_small, ushr_uint32 by assumption. reflexivity.
Qed.

(** [hash = Math.imul(hash, c) >>> 0] for a constant [c] below 2^32. *)
Lemma mix_mul_step h c :
  0 <= c < 4294967296 ->
  JS.ushr (JS.imul h c) 0 = (JS.ToUint32 h * c) mod 2 ^ 32.
Proof.
  intros Hc. rewrite ushr_0.
  change (JS.imul h c) with (JS.ToInt32 (JS.ToUint32 h * JS.ToUint32 c)).
  rewrite ToUint32_ToInt32, (ToUint32_small c) by assumption. reflexivity.
Qed.

Lemma mod32_range x : 0 <= x mod 2 ^ 32 < 4294967296.
Proof. change 4294967296 with (2 ^ 32). apply Z.mod_pos_bound. lia. Qed.

(** The script's mixing, read through the final [>>> 0], is the reference
    finalizer. *)
Lemma seededRandom_mix_spec h :
  0 <= h < 4294967296 ->
  JS.ushr (seededRandom_mix h) 0 = finalizer_reference h.
Proof.
  intros Hh. unfold seededRandom_mix, finalizer_reference.
  rewrite ushr_0.
  rewrite !mix_mul_step by lia.
  rewrite (mix_xor_step h 17) by lia.
  set (h2 := (Z.lxor h (Z.shiftr h 17) * 0xed5ad4bb) mod 2 ^ 32).
  rewrite (mix_xor_step h2 11) by first [apply mod32_range | lia].
  set (h4 := (Z.lxor h2 (Z.shiftr h2 11) * 0xac4c1b51) mod 2 ^ 32).
  rewrite (mix_xor_step h4 15) by first [apply mod32_range | lia].
  set (h6 := (Z.lxor h4 (Z.shiftr h4 15) * 0x31848bab) mod 2 ^ 32).
  rewrite (mix_xor_step h6 14) by first [apply mod32_range | lia].
  reflexivity.
Qed.

Lemma finalizer_reference_range h :
  0 <= h < 4294967296 -> 0 <= finalizer_reference h < 4294967296.
Proof.
  intros Hh. rewrite <- seededRandom_mix_spec by assumption. auto with uint32.
Qed.

#[local] Hint Resolve finalizer_reference_range : uint32.

(** ** Round clock *)

Lemma getCurrentRoundNumber_unfold w :
  getCurrentRoundNumber w = roundNumberAt 120 (Date_now w / 1000).
Proof. reflexivity. Qed.

Lemma getSecondsUntilNextRound_unfold w :
  getSecondsUntilNextRound w = secondsUntilNextRoundAt 120 (Date_now w / 1000).
Proof. reflexivity. Qed.

Lemma secondsUntilNextRoundAt_mod W t :
  0 <= t -> 0 < W -> secondsUntilNextRoundAt W t = W - t mod W.
Proof.
  intros Ht HW. unfold secondsUntilNextRoundAt.
  rewrite Z.rem_mod_nonneg by lia. reflexivity.
Qed.

Lemma currentUnixSeconds_nonneg w : 0 <= Date_now w -> 0 <= currentUnixSeconds w.
Proof. intros H. unfold currentUnixSeconds. apply Z.div_pos; lia. Qed.

(** C6: at every clock reading [t >= 0] (Unix seconds) and window length
    [W > 0], the countdown is [W - (t mod W)] and lies in [1, W]; it is
    never 0. *)
Theorem secondsUntilNextRound_bound (W t : Z) :
  0 <= t -> 0 < W ->
  secondsUntilNextRoundAt W t = W - t mod W /\
  1 <= secondsUntilNextRoundAt W t <= W /\
  secondsUntilNextRoundAt W t <> 0.
Proof.
  intros Ht HW. rewrite secondsUntilNextRoundAt_mod by assumption.
  pose proof (Z.mod_pos_bound t W HW). lia.
Qed.

Lemma secondsUntilNextRound_bound_witness :
  secondsUntilNextRoundAt 120 1700000000 = 120 - 1700000000 mod 120 /\
  1 <= secondsUntilNextRoundAt 120 1700000000 <= 120 /\
  secondsUntilNextRoundAt 120 1700000000 <> 0.
Proof. apply (secondsUntilNextRound_bound 120 1700000000); lia. Defined.

(** The countdown of the script itself, at any clock reading from the
    epoch on. *)
Corollary getSecondsUntilNextRound_range w :
  0 <= Date_now w -> 1 <= getSecondsUntilNextRound w <= 120.
Proof.
  intros Hnow. unfold getSecondsUntilNextRound, ROUND_LENGTH_SECONDS.
  pose proof (currentUnixSeconds_nonneg w Hnow) as Ht.
  rewrite secondsUntilNextRoundAt_mod by lia.
  pose proof (Z.mod_pos_bound (currentUnixSeconds w) 120 ltac:(lia)). lia.
Qed.

(** C7: the round number is monotone in time: for every window length
    [W > 0] and clock readings [0 <= t1 < t2], the round at [t1] is at most
    the round at [t2]. *)
Theorem roundNumber_monotone (W t1 t2 : Z) :
  0 < W -> 0 <= t1 -> t1 < t2 ->
  roundNumberAt W t1 <= roundNumberAt W t2.
Proof.
  intros HW Ht1 Hlt. unfold roundNumberAt.
  apply Z.div_le_mono; lia.
Qed.

Lemma roundNumber_monotone_witness :
  roundNumberAt 120 119 <= roundNumberAt 120 120.
Proof. apply (roundNumber_monotone 120 119 120); lia. Defined.

(** The same for two runs of the script at clock readings [w1] and [w2]. *)
Corollary getCurrentRoundNumber_monotone w1 w2 :
  0 <= Date_now w1 -> Date_now w1 <= Date_now w2 ->
  getCurrentRoundNumber w1 <= getCurrentRoundNumber w2.
Proof.
  intros H1 H12. unfold getCurrentRoundNumber, roundNumberAt, currentUnixSeconds.
  apply Z.div_le_mono; [reflexivity|]. apply Z.div_le_mono; lia.
Qed.

Lemma roundNumberAt_next t :
  0 <= t ->
  roundNumberAt 120 (t + secondsUntilNextRoundAt 120 t) = roundNumberAt 120 t + 1.
Proof.
  intros Ht. rewrite secondsUntilNextRoundAt_mod by lia. unfold roundNumberAt.
  pose proof (Z.div_mod t 120 ltac:(lia)) as Hdm.
  replace (t + (120 - t mod 120)) with ((t / 120 + 1) * 120) by lia.
  apply Z.div_mul. lia.
Qed.

(** The clock reading the countdown points at is a multiple of the window
    length. *)
Lemma countdown_on_boundary t :
  0 <= t -> (t + secondsUntilNextRoundAt 120 t) mod 120 = 0.
Proof.
  intros Ht. rewrite secondsUntilNextRoundAt_mod by lia.
  pose proof (Z.div_mod t 120 ltac:(lia)) as Hdm.
  replace (t + (120 - t mod 120)) with ((t / 120 + 1) * 120) by lia.
  apply Z.mod_mul. lia.
Qed.

(** Before the countdown has elapsed the round number has not changed. *)
Lemma roundNumberAt_before_countdown t d :
  0 <= t -> 0 <= d < secondsUntilNextRoundAt 120 t ->
  roundNumberAt 120 (t + d) = roundNumberAt 120 t.
Proof.
  intros Ht Hd. rewrite secondsUntilNextRoundAt_mod in Hd by lia.
  unfold roundNumberAt.
  pose proof (Z.div_mod t 120 ltac:(lia)) as Hdm.
  pose proof (Z.mod_pos_bound t 120 ltac:(lia)) as Hb.
  symmetry.
  apply (Z.div_unique (t + d) 120 (t / 120) (t mod 120 + d)); lia.
Qed.

(** C9: the countdown lands exactly on the next round boundary: a run of
    the script whose clock reads [getSecondsUntilNextRound] seconds later
    than a run at [t >= 0] sees the round number of that run plus one; its
    clock reading is the first second of that round, a multiple of the
    window length; and every run at a clock reading from [t] up to, and
    not including, that one still sees the round number of the run at
    [t]. *)
Theorem countdown_reaches_next_round (w w' : world) :
  0 <= currentUnixSeconds w ->
  currentUnixSeconds w' = currentUnixSeconds w + getSecondsUntilNextRound w ->
  getCurrentRoundNumber w' = getCurrentRoundNumber w + 1 /\
  currentUnixSeconds w' = getCurrentRoundNumber w' * ROUND_LENGTH_SECONDS /\
  currentUnixSeconds w' mod ROUND_LENGTH_SECONDS = 0 /\
  (forall w'' : world,
      currentUnixSeconds w <= currentUnixSeconds w'' < currentUnixSeconds w' ->
      getCurrentRoundNumber w'' = getCurrentRoundNumber w).
Proof.
  intros Ht Hlater.
  assert (currentUnixSeconds w' mod 120 = 0) as Hmod.
  { rewrite Hlater. unfold getSecondsUntilNextRound, ROUND_LENGTH_SECONDS.
    apply countdown_on_boundary. assumption. }
  split; [|split; [|split]].
  - unfold getCurrentRoundNumber. rewrite Hlater.
    unfold getSecondsUntilNextRound, ROUND_LENGTH_SECONDS.
    apply roundNumberAt_next. assumption.
  - unfold getCurrentRoundNumber, roundNumberAt, ROUND_LENGTH_SECONDS.
    pose proof (Z.div_mod (currentUnixSeconds w') 120 ltac:(lia)) as Hdm.
    lia.
  - exact Hmod.
  - intros w'' [Hfrom Hbefore]. unfold getCurrentRoundNumber.
    replace (currentUnixSeconds w'')
      with (currentUnixSeconds w +
            (currentUnixSeconds w'' - currentUnixSeconds w)) by lia.
    unfold ROUND_LENGTH_SECONDS.
    apply roundNumberAt_before_countdown; [assumption|].
    rewrite Hlater in Hbefore.
    unfold getSecondsUntilNextRound, ROUND_LENGTH_SECONDS in Hbefore. lia.
Qed.

Lemma countdown_reaches_next_round_witness :
  getCurrentRoundNumber (initial_world 1700000040000) =
    getCurrentRoundNumber (initial_world 1700000000000) + 1 /\
  currentUnixSeconds (initial_world 1700000040000) =
    getCurrentRoundNumber (initial_world 1700000040000) * ROUND_LENGTH_SECONDS /\
  currentUnixSeconds (initial_world 1700000040000) mod ROUND_LENGTH_SECONDS = 0 /\
  (forall w'' : world,
      currentUnixSeconds (initial_world 1700000000000)
        <= currentUnixSeconds w''
        < currentUnixSeconds (initial_world 1700000040000) ->
      getCurrentRoundNumber w'' =
        getCurrentRoundNumber (initial_world 1700000000000)).
Proof.
  apply (countdown_reaches_next_round
           (initial_world 1700000000000) (initial_world 1700000040000)).
  - vm_compute. discriminate.
  - vm_compute. reflexivity.
Defined.

(** ** Binary64 rounding *)

Section Binary64.

Lemma pow2_pos j : 0 <= j -> 0 < 2 ^ j.
Proof. intros Hj. apply Z.pow_pos_nonneg; lia. Qed.

Lemma pow2_split j k : 0 <= j -> 0 <= k -> 2 ^ (j + k) = 2 ^ j * 2 ^ k.
Proof. intros. apply Z.pow_add_r; assumption. Qed.

Lemma digits2_pos_size p : digits2_pos p = Pos.size p.
Proof. induction p; simpl; congruence. Qed.

(** The number of binary digits of a positive integer brackets it between
    two consecutive powers of two. *)
Lemma Zdigits2_bounds m :
  0 < m -> 0 < Zdigits2 m /\ 2 ^ (Zdigits2 m - 1) <= m < 2 ^ Zdigits2 m.
Proof.
  intros Hm. destruct m as [|p|p]; try lia. simpl Zdigits2.
  rewrite digits2_pos_size.
  pose proof (Pos.size_gt p) as Hgt. pose proof (Pos.size_le p) as Hle.
  assert (Z.pos (2 ^ Pos.size p) = 2 ^ Z.pos (Pos.size p)) as Hpow
    by (rewrite Pos2Z.inj_pow; reflexivity).
  split; [lia|]. split.
  - assert (2 ^ Z.pos (Pos.size p) = 2 * 2 ^ (Z.pos (Pos.size p) - 1)) as Hs.
    { rewrite <- Z.pow_succ_r by lia. f_equal. lia. }
    lia.
  - lia.
Qed.

Lemma Zdigits2_unique m d :
  0 < d -> 2 ^ (d - 1) <= m < 2 ^ d -> Zdigits2 m = d.
Proof.
  intros Hd Hm.
  assert (0 < m) as Hpos.
  { assert (0 < 2 ^ (d - 1)) by (apply Z.pow_pos_nonneg; lia). lia. }
  destruct (Zdigits2_bounds m Hpos) as [Hd' Hb].
  destruct (Z.lt_trichotomy (Zdigits2 m) d) as [Hlt | [Heq | Hgt]]; [|assumption|].
  - assert (2 ^ Zdigits2 m <= 2 ^ (d - 1)) by (apply Z.pow_le_mono_r; lia). lia.
  - assert (2 ^ d <= 2 ^ (Zdigits2 m - 1)) by (apply Z.pow_le_mono_r; lia). lia.
Qed.

(** *** Shifting a mantissa right *)

Lemma iter_pos_swap {A : Type} (f : A -> A) p :
  forall x, iter_pos f p (f x) = f (iter_pos f p x).
Proof.
  induction p as [p IH | p IH |]; intros x; simpl.
  - rewrite !IH. reflexivity.
  - rewrite !IH. reflexivity.
  - reflexivity.
Qed.

Lemma iter_pos_iter {A : Type} (f : A -> A) p :
  forall x, iter_pos f p x = Pos.iter f x p.
Proof.
  induction p as [p IH | p IH |]; intros x; simpl.
  - rewrite iter_pos_swap, !IH. apply Pos.iter_swap.
  - rewrite !IH. reflexivity.
  - reflexivity.
Qed.

Lemma shr_1_nonneg m r s :
  0 <= m ->
  shr_1 {| shr_m := m; shr_r := r; shr_s := s |} =
  {| shr_m := m / 2; shr_r := Z.odd m; shr_s := r || s |}.
Proof.
  intros Hm. rewrite <- Z.div2_div.
  destruct m as [|p|p]; [reflexivity| |lia].
  destruct p; reflexivity.
Qed.

Lemma odd_div_pow2 m j : 0 <= j -> Z.odd (m / 2 ^ j) = Z.testbit m j.
Proof.
  intros Hj. rewrite Z.testbit_odd, Z.shiftr_div_pow2 by assumption. reflexivity.
Qed.

(** A bit is dropped without loss exactly when it and all lower bits are
    zero. *)
Lemma sticky_step m j :
  0 <= j ->
  Z.testbit m j || negb (m mod 2 ^ j =? 0) = negb (m mod 2 ^ (j + 1) =? 0).
Proof.
  intros Hj.
  assert (0 < 2 ^ j) as Hp by (apply Z.pow_pos_nonneg; lia).
  rewrite Z.pow_add_r by lia. change (2 ^ 1) with 2.
  rewrite Z.rem_mul_r by lia.
  rewrite <- odd_div_pow2 by assumption.
  rewrite Zmod_odd.
  pose proof (Z.mod_pos_bound m (2 ^ j) Hp) as Hb.
  destruct (Z.odd (m / 2 ^ j)); simpl.
  - symmetry. apply negb_true_iff. apply Z.eqb_neq. lia.
  - rewrite Z.mul_0_r, Z.add_0_r. reflexivity.
Qed.

Lemma iter_shr_1 m p :
  0 <= m ->
  Pos.iter shr_1 {| shr_m := m; shr_r := false; shr_s := false |} p =
  shifted_record m (Z.pos p).
Proof.
  intros Hm. induction p as [|p IH] using Pos.peano_ind.
  - transitivity (shr_1 {| shr_m := m; shr_r := false; shr_s := false |});
      [reflexivity|].
    rewrite shr_1_nonneg by assumption.
    unfold shifted_record. change (1 - 1) with 0.
    rewrite Z.bit0_odd, Z.pow_0_r, Z.mod_1_r. reflexivity.
  - rewrite Pos.iter_succ, IH. unfold shifted_record.
    assert (0 < 2 ^ Z.pos p) as Hp by (apply Z.pow_pos_nonneg; lia).
    rewrite shr_1_nonneg by (apply Z.div_pos; lia).
    rewrite Pos2Z.inj_succ. unfold Z.succ.
    replace (Z.pos p + 1 - 1) with (Z.pos p - 1 + 1) by lia.
    rewrite <- (sticky_step m (Z.pos p - 1)) by lia.
    replace (Z.pos p - 1 + 1) with (Z.pos p) by lia.
    rewrite Z.div_div by lia.
    rewrite odd_div_pow2 by lia.
    rewrite Z.pow_add_r by lia. change (2 ^ 1) with 2.
    reflexivity.
Qed.

(** [shr] by [n > 0] on an exact non-negative mantissa. *)
Lemma shr_exact m e n :
  0 <= m -> 0 < n ->
  shr (shr_record_of_loc m loc_Exact) e n = (shifted_record m n, e + n).
Proof.
  intros Hm Hn. destruct n as [|p|p]; try lia.
  simpl. rewrite iter_pos_iter, iter_shr_1 by assumption. reflexivity.
Qed.

Lemma shr_none mrs e n : n <= 0 -> shr mrs e n = (mrs, e).
Proof. intros Hn. destruct n as [|p|p]; try lia; reflexivity. Qed.

(** *** Rounding to nearest even *)

Lemma round_shift_exact m n :
  0 < n -> m mod 2 ^ n = 0 -> round_shift m n = m / 2 ^ n.
Proof.
  intros Hn Hmod. unfold round_shift, shifted_record.
  pose proof (sticky_step m (n - 1) ltac:(lia)) as Hs.
  replace (n - 1 + 1) with n in Hs by lia.
  rewrite Hmod in Hs. simpl in Hs. apply orb_false_iff in Hs.
  destruct Hs as [Hr Hst]. rewrite Hr, Hst. reflexivity.
Qed.

(** Rounding moves the quotient up by at most one, and only when the
    remainder is at least half of the divisor. *)
Lemma round_shift_cases m n :
  0 < n ->
  round_shift m n = m / 2 ^ n \/
  (round_shift m n = m / 2 ^ n + 1 /\ 2 ^ (n - 1) <= m mod 2 ^ n).
Proof.
  intros Hn. unfold round_shift, shifted_record.
  assert (0 < 2 ^ (n - 1)) as Hp by (apply Z.pow_pos_nonneg; lia).
  assert (Z.testbit m (n - 1) = true -> 2 ^ (n - 1) <= m mod 2 ^ n) as Hbit.
  { intros Hb. replace n with (n - 1 + 1) at 2 by lia.
    rewrite Z.pow_add_r by lia. change (2 ^ 1) with 2.
    rewrite Z.rem_mul_r by lia.
    rewrite <- odd_div_pow2 in Hb by lia. rewrite Zmod_odd, Hb.
    pose proof (Z.mod_pos_bound m (2 ^ (n - 1)) Hp). lia. }
  destruct (Z.testbit m (n - 1)) eqn:Hr;
    destruct (negb (m mod 2 ^ (n - 1) =? 0)); simpl; auto.
  destruct (Z.even (m / 2 ^ n)); auto.
Qed.

Lemma round_shift_upper m n :
  0 < n -> round_shift m n * 2 ^ n <= m + 2 ^ (n - 1).
Proof.
  intros Hn.
  assert (0 < 2 ^ (n - 1)) as Hp1 by (apply Z.pow_pos_nonneg; lia).
  assert (0 < 2 ^ n) as Hp by (apply Z.pow_pos_nonneg; lia).
  assert (2 ^ n = 2 * 2 ^ (n - 1)) as Hdouble.
  { rewrite <- Z.pow_succ_r by lia. f_equal. lia. }
  pose proof (Z.div_mod m (2 ^ n) ltac:(lia)) as Hdm.
  pose proof (Z.mod_pos_bound m (2 ^ n) Hp) as Hb.
  destruct (round_shift_cases m n Hn) as [Heq | [Heq Hhalf]]; rewrite Heq; nia.
Qed.

(** The quotient of a [d]-digit mantissa by [2^(d-53)] has 53 digits. *)
Lemma quotient_53_digits m :
  0 < m -> 53 < Zdigits2 m ->
  2 ^ 52 <= m / 2 ^ (Zdigits2 m - 53) < 2 ^ 53.
Proof.
  intros Hm Hd. destruct (Zdigits2_bounds m Hm) as [_ [Hlo Hhi]].
  set (n := Zdigits2 m - 53) in *.
  assert (0 < 2 ^ n) as Hp by (apply Z.pow_pos_nonneg; lia).
  assert (2 ^ (Zdigits2 m - 1) = 2 ^ 52 * 2 ^ n) as H1.
  { rewrite <- Z.pow_add_r by lia. f_equal. lia. }
  assert (2 ^ Zdigits2 m = 2 ^ 53 * 2 ^ n) as H2.
  { rewrite <- Z.pow_add_r by lia. f_equal. lia. }
  split.
  - apply Z.div_le_lower_bound; lia.
  - apply Z.div_lt_upper_bound; lia.
Qed.

Lemma fexp_normal e : -1021 <= e -> fexp 53 1024 e = e - 53.
Proof. intros He. unfold fexp, emin. lia. Qed.

Lemma shr_fexp_short m e :
  0 < m -> Zdigits2 m <= 53 -> -1021 <= Zdigits2 m + e ->
  shr_fexp 53 1024 m e loc_Exact =
  ({| shr_m := m; shr_r := false; shr_s := false |}, e).
Proof.
  intros Hm Hd He. unfold shr_fexp. rewrite fexp_normal by assumption.
  apply shr_none. lia.
Qed.

Lemma shr_fexp_long m e :
  0 < m -> 53 < Zdigits2 m -> -1021 <= Zdigits2 m + e ->
  shr_fexp 53 1024 m e loc_Exact =
  (shifted_record m (Zdigits2 m - 53), e + (Zdigits2 m - 53)).
Proof.
  intros Hm Hd He. unfold shr_fexp. rewrite fexp_normal by assumption.
  replace (Zdigits2 m + e - 53 - e) with (Zdigits2 m - 53) by lia.
  apply shr_exact; lia.
Qed.

(** [binary_round_aux] on an exact mantissa of at most 53 digits in the
    normal range: nothing is shifted and nothing is rounded. *)
Lemma round_aux_short s m e :
  0 < m -> Zdigits2 m <= 53 -> -1021 <= Zdigits2 m + e -> e <= 971 ->
  binary_round_aux 53 1024 s m e loc_Exact = S754_finite s (Z.to_pos m) e.
Proof.
  intros Hm Hd He Hmax. unfold binary_round_aux.
  rewrite shr_fexp_short by assumption. simpl shr_m. simpl loc_of_shr_record.
  simpl round_nearest_even.
  rewrite shr_fexp_short by assumption. simpl shr_m.
  destruct m as [|p|p]; try lia. simpl Z.to_pos.
  leb_true.
  reflexivity.
Qed.

(** [binary_round_aux] on an exact mantissa of more than 53 digits in the
    normal range: the mantissa is shifted down to 53 digits and rounded to
    nearest even. *)
Lemma round_aux_long_nocarry s m e :
  0 < m -> 53 < Zdigits2 m -> -1021 <= Zdigits2 m + e ->
  round_shift m (Zdigits2 m - 53) < 2 ^ 53 ->
  e + (Zdigits2 m - 53) <= 971 ->
  binary_round_aux 53 1024 s m e loc_Exact =
  S754_finite s (Z.to_pos (round_shift m (Zdigits2 m - 53)))
              (e + (Zdigits2 m - 53)).
Proof.
  intros Hm Hd He Hnc Hmax.
  set (n := Zdigits2 m - 53) in *.
  pose proof (quotient_53_digits m Hm Hd) as Hq. fold n in Hq.
  unfold binary_round_aux. rewrite shr_fexp_long by assumption. fold n.
  change (round_nearest_even (shr_m (shifted_record m n))
            (loc_of_shr_record (shifted_record m n)))
    with (round_shift m n).
  set (m1 := round_shift m n) in *.
  assert (m1 = m / 2 ^ n \/ m1 = m / 2 ^ n + 1) as Hm1.
  { destruct (round_shift_cases m n ltac:(lia)) as [H | [H _]]; auto. }
  assert (Zdigits2 m1 = 53) as Hd53 by (apply Zdigits2_unique; lia).
  rewrite shr_fexp_short by (rewrite ?Hd53; lia). simpl shr_m.
  destruct m1 as [|p|p] eqn:Ep; try lia.
  leb_true.
  reflexivity.
Qed.

(** When rounding carries into a 54th digit, the mantissa [2^53] is
    shifted once more. *)
Lemma round_aux_long_carry s m e :
  0 < m -> 53 < Zdigits2 m -> -1021 <= Zdigits2 m + e ->
  round_shift m (Zdigits2 m - 53) = 2 ^ 53 ->
  e + (Zdigits2 m - 53) < 971 ->
  binary_round_aux 53 1024 s m e loc_Exact =
  S754_finite s (Z.to_pos (2 ^ 52)) (e + (Zdigits2 m - 53) + 1).
Proof.
  intros Hm Hd He Hc Hmax.
  set (n := Zdigits2 m - 53) in *.
  unfold binary_round_aux. rewrite shr_fexp_long by assumption. fold n.
  change (round_nearest_even (shr_m (shifted_record m n))
            (loc_of_shr_record (shifted_record m n)))
    with (round_shift m n).
  rewrite Hc.
  assert (Zdigits2 (2 ^ 53) = 54) as Hd54 by reflexivity.
  rewrite shr_fexp_long by (rewrite ?Hd54; lia). rewrite Hd54.
  change (shr_m (shifted_record (2 ^ 53) (54 - 53)))
    with (Z.pos (Z.to_pos (2 ^ 52))).
  change (54 - 53) with 1.
  leb_true.
  reflexivity.
Qed.

(** Either way the result is a finite Number with a 53-digit mantissa
    whose value is the rounded mantissa at the shifted exponent. *)
Lemma round_aux_long s m e :
  0 < m -> 53 < Zdigits2 m -> -1021 <= Zdigits2 m + e ->
  e + (Zdigits2 m - 53) <= 971 ->
  (round_shift m (Zdigits2 m - 53) = 2 ^ 53 -> e + (Zdigits2 m - 53) < 971) ->
  exists m' e',
    binary_round_aux 53 1024 s m e loc_Exact = S754_finite s m' e' /\
    2 ^ 52 <= Z.pos m' < 2 ^ 53 /\
    e + (Zdigits2 m - 53) <= e' <= 971 /\
    Z.pos m' * 2 ^ (e' - (e + (Zdigits2 m - 53))) =
      round_shift m (Zdigits2 m - 53).
Proof.
  intros Hm Hd He Hmax Hcarry.
  set (n := Zdigits2 m - 53) in *.
  pose proof (quotient_53_digits m Hm Hd) as Hq. fold n in Hq.
  assert (round_shift m n = m / 2 ^ n \/ round_shift m n = m / 2 ^ n + 1) as Hm1.
  { destruct (round_shift_cases m n ltac:(lia)) as [H | [H _]]; auto. }
  destruct (Z.eq_dec (round_shift m n) (2 ^ 53)) as [Hc | Hnc].
  - exists (Z.to_pos (2 ^ 52)), (e + n + 1).
    split; [apply round_aux_long_carry; fold n; auto|].
    split; [simpl; lia|]. specialize (Hcarry Hc). split; [lia|].
    replace (e + n + 1 - (e + n)) with 1 by lia. rewrite Hc. reflexivity.
  - exists (Z.to_pos (round_shift m n)), (e + n).
    split; [apply round_aux_long_nocarry; fold n; auto; lia|].
    rewrite Z2Pos.id by lia. split; [lia|]. split; [lia|].
    rewrite Z.sub_diag. simpl. lia.
Qed.

(** *** Integers as binary64 values *)

Lemma iter_xO_pow m d : Z.pos (Pos.iter xO m d) = Z.pos m * 2 ^ Z.pos d.
Proof.
  induction d as [|d IH] using Pos.peano_ind.
  - simpl. lia.
  - rewrite Pos.iter_succ, Pos2Z.inj_succ, Z.pow_succ_r by lia.
    rewrite Pos2Z.inj_xO, IH. lia.
Qed.

Lemma shl_align_shift mx ex ex' :
  ex' < ex ->
  shl_align mx ex ex' = (Z.to_pos (Z.pos mx * 2 ^ (ex - ex')), ex').
Proof.
  intros Hlt. unfold shl_align.
  destruct (ex' - ex) as [|d|d] eqn:Ed; try lia.
  replace (ex - ex') with (Z.pos d) by lia.
  rewrite <- iter_xO_pow. reflexivity.
Qed.

Lemma shl_align_none mx ex ex' : ex <= ex' -> shl_align mx ex ex' = (mx, ex).
Proof.
  intros Hle. unfold shl_align.
  destruct (ex' - ex) as [|d|d] eqn:Ed; try lia; reflexivity.
Qed.

Lemma digits_shift k j :
  0 < k -> 0 <= j -> Zdigits2 (k * 2 ^ j) = Zdigits2 k + j.
Proof.
  intros Hk Hj. destruct (Zdigits2_bounds k Hk) as [Hd [Hlo Hhi]].
  assert (0 < 2 ^ j) as Hp by (apply Z.pow_pos_nonneg; lia).
  apply Zdigits2_unique; [lia|].
  replace (Zdigits2 k + j - 1) with (Zdigits2 k - 1 + j) by lia.
  rewrite !Z.pow_add_r by lia. nia.
Qed.

(** A positive integer below 2^53 is a binary64 value, held with a
    53-digit mantissa. *)
Lemma of_Z_small k :
  0 < k < 2 ^ 53 ->
  JS.of_Z k =
  S754_finite false (Z.to_pos (k * 2 ^ (53 - Zdigits2 k))) (Zdigits2 k - 53).
Proof.
  intros [Hk Hlt]. destruct (Zdigits2_bounds k Hk) as [Hd [Hlo Hhi]].
  assert (Zdigits2 k <= 53) as Hd53.
  { destruct (Z.le_gt_cases (Zdigits2 k) 53) as [H | H]; [assumption|].
    assert (2 ^ 53 <= 2 ^ (Zdigits2 k - 1)) by (apply Z.pow_le_mono_r; lia). lia. }
  destruct k as [|p|p]; try lia.
  unfold JS.of_Z, binary_normalize, binary_round.
  change (Z.pos (digits2_pos p)) with (Zdigits2 (Z.pos p)).
  rewrite fexp_normal by lia. rewrite Z.add_0_r.
  assert (0 < 2 ^ (53 - Zdigits2 (Z.pos p))) as Hp
    by (apply Z.pow_pos_nonneg; lia).
  destruct (Z.eq_dec (Zdigits2 (Z.pos p)) 53) as [Heq | Hne].
  - rewrite shl_align_none by lia.
    rewrite round_aux_short by lia.
    rewrite Heq. change (2 ^ (53 - 53)) with 1. rewrite Z.mul_1_r. reflexivity.
  - rewrite shl_align_shift by lia.
    replace (0 - (Zdigits2 (Z.pos p) - 53)) with (53 - Zdigits2 (Z.pos p)) by lia.
    rewrite Z2Pos.id by lia.
    rewrite round_aux_short;
      rewrite ?digits_shift by lia; try lia.
    reflexivity.
Qed.

Lemma of_Z_small_mantissa k :
  0 < k < 2 ^ 53 -> 2 ^ 52 <= k * 2 ^ (53 - Zdigits2 k) < 2 ^ 53.
Proof.
  intros [Hk Hlt]. destruct (Zdigits2_bounds k Hk) as [Hd [Hlo Hhi]].
  set (d := Zdigits2 k) in *.
  assert (d <= 53) as Hd53.
  { destruct (Z.le_gt_cases d 53) as [H | H]; [assumption|].
    assert (2 ^ 53 <= 2 ^ (d - 1)) by (apply Z.pow_le_mono_r; lia). lia. }
  assert (0 < 2 ^ (53 - d)) as Hp by (apply Z.pow_pos_nonneg; lia).
  assert (2 ^ 52 = 2 ^ (d - 1) * 2 ^ (53 - d)) as H1.
  { rewrite <- Z.pow_add_r by lia. f_equal. lia. }
  assert (2 ^ 53 = 2 ^ d * 2 ^ (53 - d)) as H2.
  { rewrite <- Z.pow_add_r by lia. f_equal. lia. }
  nia.
Qed.

(** *** The division by 2^32 *)

Lemma of_Z_two32 :
  JS.of_Z 4294967296 = S754_finite false (Z.to_pos (2 ^ 52)) (-20).
Proof. reflexivity. Qed.

(** Dividing a normal Number in [1, 2^53) by 2^32 only lowers the exponent
    by 32: the quotient is exact. *)
Lemma div_two32_exact mx ex :
  2 ^ 52 <= Z.pos mx < 2 ^ 53 -> -52 <= ex <= 0 ->
  JS.div (S754_finite false mx ex) (JS.of_Z 4294967296) =
  S754_finite false mx (ex - 32).
Proof.
  intros Hmx Hex. rewrite of_Z_two32. unfold JS.div, SFdiv, SFdiv_core_binary.
  assert (Zdigits2 (Z.pos mx) = 53) as Hdx by (apply Zdigits2_unique; lia).
  rewrite Hdx.
  change (Zdigits2 (Z.pos (Z.to_pos (2 ^ 52)))) with 53.
  rewrite fexp_normal by lia.
  replace (Z.min (53 + ex - (53 + -20) - 53) (ex - -20)) with (ex - 33) by lia.
  replace (ex - -20 - (ex - 33)) with 53 by lia.
  rewrite Z.shiftl_mul_pow2 by lia.
  change (Z.pos (Z.to_pos (2 ^ 52))) with (2 ^ 52).
  assert (Z.pos mx * 2 ^ 53 = 2 ^ 52 * (2 * Z.pos mx) + 0) as Hsplit by lia.
  assert (Z.div_eucl (Z.pos mx * 2 ^ 53) (2 ^ 52) = (2 * Z.pos mx, 0)) as Hde.
  { pose proof (Z.div_mod_unique (2 ^ 52) ((Z.pos mx * 2 ^ 53) / 2 ^ 52)
                  (2 * Z.pos mx) ((Z.pos mx * 2 ^ 53) mod 2 ^ 52) 0) as Hu.
    pose proof (Z.div_mod (Z.pos mx * 2 ^ 53) (2 ^ 52) ltac:(lia)) as Hdm.
    pose proof (Z.mod_pos_bound (Z.pos mx * 2 ^ 53) (2 ^ 52) ltac:(lia)) as Hb.
    destruct Hu as [Hq Hr]; [left; lia | left; lia | lia |].
    unfold Z.div in Hq. unfold Z.modulo in Hr.
    destruct (Z.div_eucl (Z.pos mx * 2 ^ 53) (2 ^ 52)) as [q r].
    simpl in Hq, Hr. subst. reflexivity. }
  rewrite Hde.
  change (new_location (2 ^ 52) 0) with loc_Exact.
  change (xorb false false) with false.
  assert (Zdigits2 (2 * Z.pos mx) = 54) as Hd2 by (apply Zdigits2_unique; lia).
  assert (round_shift (2 * Z.pos mx) 1 = Z.pos mx) as Hrs.
  { rewrite round_shift_exact.
    - change (2 ^ 1) with 2. rewrite Z.mul_comm. apply Z.div_mul. lia.
    - lia.
    - change (2 ^ 1) with 2. rewrite Z.mul_comm. apply Z.mod_mul. lia. }
  rewrite round_aux_long_nocarry; rewrite ?Hd2; change (54 - 53) with 1;
    rewrite ?Hrs; try lia.
  f_equal. lia.
Qed.

(** The quotient [(hash >>> 0) / 4294967296] of [seededRandom]. *)
Lemma div_uint32_two32 h :
  0 < h < 4294967296 ->
  JS.div (JS.of_Z h) (JS.of_Z 4294967296) =
  S754_finite false (Z.to_pos (h * 2 ^ (53 - Zdigits2 h))) (Zdigits2 h - 85).
Proof.
  intros Hh.
  assert (0 < h < 2 ^ 53) as Hh53 by (change (2 ^ 53) with 9007199254740992; lia).
  pose proof (of_Z_small_mantissa h Hh53) as Hm.
  destruct (Zdigits2_bounds h ltac:(lia)) as [Hd [Hlo Hhi]].
  assert (Zdigits2 h <= 53) as Hd53.
  { destruct (Z.le_gt_cases (Zdigits2 h) 53) as [H | H]; [assumption|].
    assert (2 ^ 53 <= 2 ^ (Zdigits2 h - 1)) by (apply Z.pow_le_mono_r; lia). lia. }
  rewrite of_Z_small by assumption.
  rewrite div_two32_exact by (rewrite ?Z2Pos.id; lia).
  f_equal. lia.
Qed.

(** *** The product of a unit fraction and a slot count *)

(** The product of [x = mx * 2^(-a)], at least [2^-32] below one, and
    [y = my * 2^ey >= 1] rounds to a Number strictly below [y]. *)
Lemma mul_below mx a my ey :
  53 <= a <= 84 ->
  2 ^ 52 <= Z.pos mx < 2 ^ 53 -> Z.pos mx + 2 ^ (a - 32) <= 2 ^ a ->
  2 ^ 52 <= Z.pos my < 2 ^ 53 -> -52 <= ey <= 971 ->
  exists m' e',
    JS.mul (S754_finite false mx (- a)) (S754_finite false my ey) =
      S754_finite false m' e' /\
    2 ^ 52 <= Z.pos m' < 2 ^ 53 /\
    -84 <= e' <= ey /\
    Z.pos m' < Z.pos my * 2 ^ (ey - e').
Proof.
  intros Ha Hmx Hgap Hmy Hey.
  unfold JS.mul, SFmul. change (xorb false false) with false.
  rewrite Pos2Z.inj_mul.
  set (P := Z.pos mx * Z.pos my).
  pose proof (pow2_pos (a - 32) ltac:(lia)) as Hp32.
  pose proof (pow2_pos a ltac:(lia)) as Hpa.
  assert (2 ^ a = 2 ^ (a - 53) * 2 ^ 53) as Ha53.
  { rewrite <- pow2_split by lia. f_equal. lia. }
  pose proof (pow2_pos (a - 53) ltac:(lia)) as Hp53.
  assert (Z.pos mx < 2 ^ a) as Hmxa by lia.
  assert (0 < P) as HP by (unfold P; lia).
  assert (2 ^ 104 <= P) as HPlo.
  { change (2 ^ 104) with (2 ^ 52 * 2 ^ 52). unfold P. nia. }
  destruct (Zdigits2_bounds P HP) as [Hd [Hdlo Hdhi]].
  set (d := Zdigits2 P) in *.
  assert (105 <= d) as Hd105.
  { destruct (Z.le_gt_cases 105 d) as [H | H]; [assumption|].
    assert (2 ^ d <= 2 ^ 104) by (apply Z.pow_le_mono_r; lia). lia. }
  set (n := d - 53) in *.
  pose proof (pow2_pos n ltac:(lia)) as Hpn.
  pose proof (pow2_pos (n - 1) ltac:(lia)) as Hpn1.
  assert (2 ^ n = 2 * 2 ^ (n - 1)) as Hn2.
  { rewrite <- Z.pow_succ_r by lia. f_equal. lia. }
  (* the product has at most 106 digits *)
  assert (P < 2 ^ 106) as HPhi.
  { change (2 ^ 106) with (2 ^ 53 * 2 ^ 53). unfold P. nia. }
  assert (n <= 53) as Hn53.
  { destruct (Z.le_gt_cases n 53) as [H | H]; [assumption|].
    assert (2 ^ 106 <= 2 ^ (d - 1)) by (apply Z.pow_le_mono_r; lia). lia. }
  (* the rounded mantissa stays strictly below [my * 2^(a - n)] *)
  pose proof (round_shift_upper P n ltac:(lia)) as Hup.
  set (m1 := round_shift P n) in *.
  assert (2 ^ (n - 1) < Z.pos my * 2 ^ (a - 32)) as Hhalf.
  { assert (2 ^ (n - 1) <= 2 ^ 52) by (apply Z.pow_le_mono_r; lia).
    assert (2 ^ 1 <= 2 ^ (a - 32)) by (apply Z.pow_le_mono_r; lia).
    change (2 ^ 1) with 2 in *. nia. }
  assert (m1 * 2 ^ n < Z.pos my * 2 ^ a) as Hlt.
  { assert (P + Z.pos my * 2 ^ (a - 32) <= Z.pos my * 2 ^ a) by (unfold P; nia).
    lia. }
  assert (2 ^ a = 2 ^ (a - n) * 2 ^ n) as Han.
  { rewrite <- pow2_split by lia. f_equal. lia. }
  pose proof (pow2_pos (a - n) ltac:(lia)) as Hpan.
  assert (m1 < Z.pos my * 2 ^ (a - n)) as Hm1 by nia.
  pose proof (round_aux_long false P (- a + ey)) as Hround.
  fold d in Hround. fold n in Hround. fold m1 in Hround.
  destruct Hround as (m' & e' & Hres & Hm' & He' & Hval); try lia.
  { (* a carry needs room above the shifted exponent *)
    intros Hc. destruct (Z.eq_dec n a) as [Heq | Hne]; [|lia].
    rewrite Heq, Z.sub_diag in Hm1. change (2 ^ 0) with 1 in Hm1. lia. }
  exists m', e'. split; [exact Hres|]. split; [exact Hm'|].
  set (k := e' - (- a + ey + n)) in *.
  pose proof (pow2_pos k ltac:(lia)) as Hpk.
  (* the result exponent does not exceed [ey] *)
  assert (k <= a - n) as Hk.
  { destruct (Z.le_gt_cases k (a - n)) as [H | H]; [assumption|].
    assert (2 ^ (a - n + 1) <= 2 ^ k) as Hpow by (apply Z.pow_le_mono_r; lia).
    rewrite pow2_split in Hpow by lia. change (2 ^ 1) with 2 in Hpow.
    assert (2 ^ 52 * 2 ^ k <= Z.pos m' * 2 ^ k)
      by (apply Z.mul_le_mono_nonneg_r; lia).
    assert (Z.pos my * 2 ^ (a - n) <= 2 ^ 53 * 2 ^ (a - n))
      by (apply Z.mul_le_mono_nonneg_r; lia).
    lia. }
  split; [lia|].
  replace (ey - e') with (a - n - k) by lia.
  assert (2 ^ (a - n) = 2 ^ (a - n - k) * 2 ^ k) as Hsplit.
  { rewrite <- pow2_split by lia. f_equal. lia. }
  apply (Z.mul_lt_mono_pos_r (2 ^ k)); [assumption|].
  rewrite <- Z.mul_assoc, <- Hsplit. lia.
Qed.

(** *** Integral Numbers and the addition of one *)

Lemma digits_small k : 0 < k < 2 ^ 53 -> 0 < Zdigits2 k <= 53.
Proof.
  intros [Hk Hlt]. destruct (Zdigits2_bounds k Hk) as [Hd [Hlo Hhi]].
  split; [assumption|].
  destruct (Z.le_gt_cases (Zdigits2 k) 53) as [H | H]; [assumption|].
  assert (2 ^ 53 <= 2 ^ (Zdigits2 k - 1)) by (apply Z.pow_le_mono_r; lia). lia.
Qed.

Lemma to_Z_of_Z_small k : 0 < k < 2 ^ 53 -> JS.to_Z (JS.of_Z k) = Some k.
Proof.
  intros Hk. pose proof (digits_small k Hk) as Hd.
  pose proof (of_Z_small_mantissa k Hk) as Hm.
  rewrite of_Z_small by assumption. unfold JS.to_Z.
  rewrite Z2Pos.id by lia.
  pose proof (pow2_pos (53 - Zdigits2 k) ltac:(lia)) as Hp.
  destruct (Z.leb_spec 0 (Zdigits2 k - 53)) as [Hge | Hlt].
  - replace (Zdigits2 k) with 53 by lia. simpl. f_equal. lia.
  - replace (- (Zdigits2 k - 53)) with (53 - Zdigits2 k) by lia.
    rewrite Z.mod_mul by lia. rewrite Z.eqb_refl. unfold cond_Zopp.
    rewrite Z.div_mul by lia. reflexivity.
Qed.

Lemma of_Z_one :
  JS.of_Z 1 = S754_finite false (Z.to_pos (2 ^ 52)) (-52).
Proof. reflexivity. Qed.

(** [1 + y] for a normal [y >= 1]: the operands are aligned at exponent
    -52, added as integers, and the sum is rounded. *)
Lemma add_one_sum my ey :
  2 ^ 52 <= Z.pos my -> -52 <= ey ->
  JS.add (JS.of_Z 1) (S754_finite false my ey) =
  binary_round_aux 53 1024 false (2 ^ 52 + Z.pos my * 2 ^ (ey + 52)) (-52)
                   loc_Exact.
Proof.
  intros Hmy Hey. rewrite of_Z_one. unfold JS.add, SFadd.
  replace (Z.min (-52) ey) with (-52) by lia.
  rewrite shl_align_none by lia. simpl fst. simpl cond_Zopp.
  pose proof (pow2_pos (ey + 52) ltac:(lia)) as Hp.
  assert (Z.pos (fst (shl_align my ey (-52))) = Z.pos my * 2 ^ (ey + 52)) as Hal.
  { destruct (Z.eq_dec ey (-52)) as [Heq | Hne].
    - rewrite shl_align_none by lia. subst ey. simpl fst. simpl. lia.
    - rewrite shl_align_shift by lia. simpl fst.
      replace (ey - -52) with (ey + 52) by lia.
      apply Z2Pos.id. lia. }
  rewrite Hal. change 4503599627370496 with (2 ^ 52).
  set (S := 2 ^ 52 + Z.pos my * 2 ^ (ey + 52)).
  assert (2 ^ 53 <= S) as HS.
  { unfold S. change (2 ^ 53) with (2 ^ 52 + 2 ^ 52).
    assert (1 <= 2 ^ (ey + 52)) by lia. nia. }
  destruct S as [|p|p] eqn:ES; try lia.
  unfold binary_normalize, binary_round.
  change (Z.pos (digits2_pos p)) with (Zdigits2 (Z.pos p)).
  destruct (Zdigits2_bounds (Z.pos p) ltac:(lia)) as [Hd [Hlo Hhi]].
  assert (54 <= Zdigits2 (Z.pos p)) as Hd54.
  { destruct (Z.le_gt_cases 54 (Zdigits2 (Z.pos p))) as [H | H]; [assumption|].
    assert (2 ^ Zdigits2 (Z.pos p) <= 2 ^ 53) by (apply Z.pow_le_mono_r; lia).
    lia. }
  rewrite fexp_normal by lia.
  rewrite shl_align_none by lia. reflexivity.
Qed.

(** On safe integers the addition of one is exact. *)
Lemma add_one_of_Z F :
  0 < F -> F + 1 < 2 ^ 53 -> JS.add (JS.of_Z 1) (JS.of_Z F) = JS.of_Z (F + 1).
Proof.
  intros HF HF1.
  pose proof (digits_small F ltac:(lia)) as HdF.
  pose proof (digits_small (F + 1) ltac:(lia)) as HdF1.
  destruct (Zdigits2_bounds (F + 1) ltac:(lia)) as [_ [Hlo1 Hhi1]].
  assert (2 <= Zdigits2 (F + 1)) as Hd2.
  { destruct (Z.le_gt_cases 2 (Zdigits2 (F + 1))) as [H | H]; [assumption|].
    replace (Zdigits2 (F + 1)) with 1 in Hhi1 by lia.
    change (2 ^ 1) with 2 in Hhi1. lia. }
  pose proof (of_Z_small_mantissa F ltac:(lia)) as HmF.
  pose proof (of_Z_small_mantissa (F + 1) ltac:(lia)) as HmF1.
  rewrite (of_Z_small F) by lia.
  rewrite add_one_sum by lia.
  rewrite Z2Pos.id by lia.
  replace (2 ^ 52 + F * 2 ^ (53 - Zdigits2 F) * 2 ^ (Zdigits2 F - 53 + 52))
    with ((F + 1) * 2 ^ 52).
  2:{ rewrite <- Z.mul_assoc, <- pow2_split by lia.
      replace (53 - Zdigits2 F + (Zdigits2 F - 53 + 52)) with 52 by lia. lia. }
  set (d1 := Zdigits2 (F + 1)) in *.
  assert (Zdigits2 ((F + 1) * 2 ^ 52) = d1 + 52) as HdS
    by (apply digits_shift; lia).
  pose proof (pow2_pos (d1 - 1) ltac:(lia)) as Hpn.
  pose proof (pow2_pos (53 - d1) ltac:(lia)) as Hpr.
  assert ((F + 1) * 2 ^ 52 = (F + 1) * 2 ^ (53 - d1) * 2 ^ (d1 - 1)) as Hfac.
  { rewrite <- Z.mul_assoc, <- pow2_split by lia. do 2 f_equal. lia. }
  assert (round_shift ((F + 1) * 2 ^ 52) (d1 + 52 - 53) =
          (F + 1) * 2 ^ (53 - d1)) as Hrs.
  { replace (d1 + 52 - 53) with (d1 - 1) by lia.
    rewrite round_shift_exact by (try lia; rewrite Hfac; apply Z.mod_mul; lia).
    rewrite Hfac. apply Z.div_mul. lia. }
  rewrite round_aux_long_nocarry; rewrite ?HdS, ?Hrs; try lia.
  rewrite (of_Z_small (F + 1)) by lia. fold d1. f_equal. lia.
Qed.

Lemma to_Z_of_Z_nonneg k : 0 <= k < 2 ^ 53 -> JS.to_Z (JS.of_Z k) = Some k.
Proof.
  intros Hk. destruct (Z.eq_dec k 0) as [-> | Hne]; [reflexivity|].
  apply to_Z_of_Z_small. lia.
Qed.

Lemma add_one_to_Z F :
  0 <= F -> F + 1 < 2 ^ 53 ->
  JS.to_Z (JS.add (JS.of_Z 1) (JS.of_Z F)) = Some (F + 1).
Proof.
  intros HF HF1. destruct (Z.eq_dec F 0) as [-> | Hne]; [reflexivity|].
  rewrite add_one_of_Z by lia. apply to_Z_of_Z_small. lia.
Qed.

(** [1 + y] for an integral [y] in [2^52, 2^53): exact, also at the top of
    the range, where the sum is [2^53]. *)
Lemma add_one_unit_exponent my :
  2 ^ 52 <= Z.pos my < 2 ^ 53 ->
  JS.to_Z (JS.add (JS.of_Z 1) (S754_finite false my 0)) = Some (Z.pos my + 1).
Proof.
  intros Hmy.
  assert (Zdigits2 (Z.pos my) = 53) as Hd by (apply Zdigits2_unique; lia).
  destruct (Z.eq_dec (Z.pos my + 1) (2 ^ 53)) as [Htop | Hlow].
  - assert (my = Z.to_pos (2 ^ 53 - 1)) as ->.
    { apply Pos2Z.inj. rewrite Z2Pos.id; lia. }
    reflexivity.
  - assert (S754_finite false my 0 = JS.of_Z (Z.pos my)) as ->.
    { rewrite of_Z_small by lia. rewrite Hd.
      change (2 ^ (53 - 53)) with 1. rewrite Z.mul_1_r. reflexivity. }
    apply add_one_to_Z; lia.
Qed.

(** [1 + y] for an integral [y = my * 2^ey] with [ey >= 1]: the sum is
    rounded, to [y] itself or to the next Number above it. *)
Lemma add_one_large my ey :
  2 ^ 52 <= Z.pos my < 2 ^ 53 -> 1 <= ey <= 971 ->
  (Z.pos my + 1 = 2 ^ 53 -> ey < 971) ->
  exists r,
    JS.to_Z (JS.add (JS.of_Z 1) (S754_finite false my ey)) = Some r /\
    Z.pos my * 2 ^ ey <= r <= (Z.pos my + 1) * 2 ^ ey.
Proof.
  intros Hmy Hey Htop.
  rewrite add_one_sum by lia.
  set (n := ey + 52).
  set (S := 2 ^ 52 + Z.pos my * 2 ^ n).
  pose proof (pow2_pos n ltac:(lia)) as Hpn.
  pose proof (pow2_pos ey ltac:(lia)) as Hpe.
  assert (2 ^ n = 2 ^ ey * 2 ^ 52) as Hn by (apply pow2_split; lia).
  assert (2 <= 2 ^ ey) as H2e.
  { change 2 with (2 ^ 1) at 1. apply Z.pow_le_mono_r; lia. }
  assert (2 ^ 52 < 2 ^ n) as H52 by lia.
  assert (Zdigits2 S = n + 53) as HdS.
  { apply Zdigits2_unique; [lia|].
    replace (n + 53 - 1) with (52 + n) by lia.
    rewrite (pow2_split 52 n), (Z.add_comm n 53), (pow2_split 53 n) by lia.
    unfold S. nia. }
  assert (S / 2 ^ n = Z.pos my) as Hq.
  { unfold S. rewrite Z.div_add by lia. rewrite Z.div_small by lia. lia. }
  assert (0 < S) as HS by (unfold S; nia).
  pose proof (round_shift_cases S n ltac:(lia)) as Hcases.
  rewrite Hq in Hcases.
  pose proof (round_aux_long false S (-52)) as Hround.
  rewrite HdS in Hround. replace (n + 53 - 53) with n in Hround by lia.
  destruct Hround as (m' & e' & Hres & Hm' & He' & Hval); try lia.
  rewrite Hres. unfold JS.to_Z.
  leb_true.
  exists (Z.pos m' * 2 ^ e'). split; [reflexivity|].
  set (k := e' - (-52 + n)) in *.
  assert (2 ^ e' = 2 ^ k * 2 ^ ey) as He'k.
  { rewrite <- pow2_split by lia. f_equal. lia. }
  rewrite He'k, Z.mul_assoc, Hval. unfold cond_Zopp.
  destruct Hcases as [H | [H _]]; rewrite H; nia.
Qed.

(** *** Slot counts *)

Lemma Some_eq_inv {A : Type} (a b : A) : Some a = Some b -> a = b.
Proof. intros H. injection H. auto. Qed.

(** A valid Number holding an integer [N >= 1] is positive and normal. *)
Lemma slot_count_normal y N :
  valid_binary 53 1024 y = true -> JS.to_Z y = Some N -> 1 <= N ->
  exists my ey,
    y = S754_finite false my ey /\
    2 ^ 52 <= Z.pos my < 2 ^ 53 /\ -52 <= ey <= 971 /\
    (ey < 0 -> Z.pos my = N * 2 ^ (- ey)) /\
    (0 <= ey -> N = Z.pos my * 2 ^ ey).
Proof.
  intros Hvalid HN Hpos.
  destruct y as [s | s | | s m e]; unfold JS.to_Z in HN; try discriminate.
  - apply Some_eq_inv in HN. lia.
  - simpl in Hvalid. unfold bounded, canonical_mantissa in Hvalid.
    apply andb_true_iff in Hvalid. destruct Hvalid as [Hcanon Hmax].
    apply Z.eqb_eq in Hcanon. apply Z.leb_le in Hmax.
    change (Z.pos (digits2_pos m)) with (Zdigits2 (Z.pos m)) in Hcanon.
    destruct (Zdigits2_bounds (Z.pos m) ltac:(lia)) as [Hd [Hlo Hhi]].
    unfold fexp, emin in Hcanon.
    (* the value is an integer, so at most [digits - 1] bits are fractional *)
    assert (0 <= e \/ (e < 0 /\ Z.pos m mod 2 ^ (- e) = 0)) as Hwhole.
    { destruct (Z.leb_spec 0 e) as [Hge | Hlt]; [left; assumption|].
      right. split; [assumption|].
      destruct (Z.eqb_spec (Z.pos m mod 2 ^ (- e)) 0); [assumption|discriminate]. }
    assert (- e < Zdigits2 (Z.pos m)) as Hfrac.
    { destruct Hwhole as [Hge | [Hlt Hmod]]; [lia|].
      destruct (Z.lt_ge_cases (- e) (Zdigits2 (Z.pos m))) as [H | H]; [assumption|].
      assert (2 ^ Zdigits2 (Z.pos m) <= 2 ^ (- e)) by (apply Z.pow_le_mono_r; lia).
      rewrite Z.mod_small in Hmod by lia. lia. }
    assert (Zdigits2 (Z.pos m) = 53) as Hd53 by lia.
    rewrite Hd53 in *. change (53 - 1) with 52 in Hlo.
    destruct s.
    + (* a negative Number does not hold [N >= 1] *)
      exfalso. unfold cond_Zopp in HN.
      destruct Hwhole as [Hge | [Hlt Hmod]].
      * leb_true_in HN.
        apply Some_eq_inv in HN. subst N. pose proof (pow2_pos e Hge).
        assert (0 < Z.pos m * 2 ^ e) by (apply Z.mul_pos_pos; lia).
        rewrite Z.mul_opp_l in Hpos. lia.
      * leb_false_in HN.
        rewrite Hmod, Z.eqb_refl in HN. apply Some_eq_inv in HN. subst N.
        pose proof (pow2_pos (- e) ltac:(lia)).
        assert (0 <= Z.pos m / 2 ^ (- e)) by (apply Z.div_pos; lia). lia.
    + exists m, e. split; [reflexivity|]. split; [lia|]. split; [lia|].
      unfold cond_Zopp in HN. split.
      * intros Hlt. destruct Hwhole as [Hge | [_ Hmod]]; [lia|].
        leb_false_in HN.
        rewrite Hmod, Z.eqb_refl in HN. apply Some_eq_inv in HN. subst N.
        pose proof (pow2_pos (- e) ltac:(lia)).
        pose proof (Z.div_mod (Z.pos m) (2 ^ (- e)) ltac:(lia)). lia.
      * intros Hge.
        leb_true_in HN.
        apply Some_eq_inv in HN. subst N. reflexivity.
Qed.

Lemma floor_fraction m e :
  e < 0 ->
  JS.floor (S754_finite false m e) = JS.of_Z (Z.pos m / 2 ^ (- e)).
Proof.
  intros He. unfold JS.floor.
  leb_false.
  reflexivity.
Qed.

Lemma floor_integral m e :
  0 <= e -> JS.floor (S754_finite false m e) = S754_finite false m e.
Proof.
  intros He. unfold JS.floor.
  leb_true.
  reflexivity.
Qed.

(** The heart of the resolver: for a unit fraction [x] at least [2^-32]
    below one and a slot count [y] holding [N >= 1],
    [Math.floor(x * y)] is an integer in [0, N - 1] and
    [1 + Math.floor(x * y)] is an integer in [1, N]. *)
Lemma floor_mul_bounds mx a y N :
  53 <= a <= 84 ->
  2 ^ 52 <= Z.pos mx < 2 ^ 53 -> Z.pos mx + 2 ^ (a - 32) <= 2 ^ a ->
  valid_binary 53 1024 y = true -> JS.to_Z y = Some N -> 1 <= N ->
  (exists i,
      JS.to_Z (JS.floor (JS.mul (S754_finite false mx (- a)) y)) = Some i /\
      0 <= i < N) /\
  (exists k,
      JS.to_Z (JS.add (JS.of_Z 1)
                 (JS.floor (JS.mul (S754_finite false mx (- a)) y))) = Some k /\
      1 <= k <= N).
Proof.
  intros Ha Hmx Hgap Hvalid HN Hpos.
  destruct (slot_count_normal y N Hvalid HN Hpos)
    as (my & ey & -> & Hmy & Hey & Hneg & Hnonneg).
  destruct (mul_below mx a my ey Ha Hmx Hgap Hmy Hey)
    as (m' & e' & -> & Hm' & He' & Hlt).
  pose proof (pow2_pos (ey - e') ltac:(lia)) as Hpd.
  destruct (Z.lt_ge_cases e' 0) as [Hfrac | Hwhole].
  - (* the product has fractional bits: its floor is below 2^52 *)
    rewrite floor_fraction by assumption.
    set (F := Z.pos m' / 2 ^ (- e')).
    pose proof (pow2_pos (- e') ltac:(lia)) as Hpe.
    assert (2 <= 2 ^ (- e')) as H2.
    { change 2 with (2 ^ 1) at 1. apply Z.pow_le_mono_r; lia. }
    assert (0 <= F) as HF0 by (apply Z.div_pos; lia).
    assert (F < 2 ^ 52) as HF52.
    { apply Z.div_lt_upper_bound; [lia|].
      change (2 ^ 53) with (2 * 2 ^ 52) in Hm'. nia. }
    assert (F < N) as HFN.
    { destruct (Z.lt_ge_cases ey 0) as [Hey0 | Hey0].
      - apply Z.div_lt_upper_bound; [lia|].
        rewrite (Hneg Hey0) in Hlt.
        rewrite <- Z.mul_assoc, <- pow2_split in Hlt by lia.
        replace (- ey + (ey - e')) with (- e') in Hlt by lia. lia.
      - rewrite (Hnonneg Hey0). pose proof (pow2_pos ey Hey0). nia. }
    assert (F + 1 < 2 ^ 53) by (change (2 ^ 53) with (2 * 2 ^ 52); lia).
    split.
    + exists F. split; [apply to_Z_of_Z_nonneg; lia | lia].
    + exists (F + 1). split; [apply add_one_to_Z; lia | lia].
  - (* the product is integral: [ey >= e' >= 0] and [N] is a multiple of
       [2^e'] above it *)
    rewrite floor_integral by assumption.
    pose proof (pow2_pos e' Hwhole) as Hpe.
    assert (N = Z.pos my * 2 ^ (ey - e') * 2 ^ e') as HNe.
    { rewrite (Hnonneg ltac:(lia)), <- Z.mul_assoc, <- pow2_split by lia.
      do 2 f_equal. lia. }
    assert ((Z.pos m' + 1) * 2 ^ e' <= N) as Hnext by (rewrite HNe; nia).
    split.
    + exists (Z.pos m' * 2 ^ e'). split; [|nia].
      unfold JS.to_Z.
      leb_true.
      reflexivity.
    + destruct (Z.eq_dec e' 0) as [-> | Hne].
      * exists (Z.pos m' + 1). split; [apply add_one_unit_exponent; lia|].
        change (2 ^ 0) with 1 in Hnext. lia.
      * destruct (add_one_large m' e') as (r & Hr & Hrb); try lia.
        { (* a carry to [2^(53 + e')] still fits below [N < 2^(53 + ey)] *)
          intros Htop.
          destruct (Z.eq_dec e' ey) as [Heq | Hneq]; [|lia].
          rewrite Heq, Z.sub_diag in Hlt. change (2 ^ 0) with 1 in Hlt. lia. }
        exists r. split; [exact Hr|]. nia.
Qed.

Lemma floor_mul_zero y N :
  valid_binary 53 1024 y = true -> JS.to_Z y = Some N -> 1 <= N ->
  JS.floor (JS.mul (S754_zero false) y) = S754_zero false.
Proof.
  intros Hvalid HN Hpos.
  destruct (slot_count_normal y N Hvalid HN Hpos) as (my & ey & -> & _).
  reflexivity.
Qed.

End Binary64.

(** ** The value of [seededRandom] *)

(** The final mixed hash, [hash >>> 0] on the last line of
    [seededRandom]. *)
Lemma final_hash_spec w s :
  JS.ushr (seededRandom_mix (seedToNumber w s)) 0 =
  finalizer_reference (seedToNumber w s).
Proof. apply seededRandom_mix_spec. auto with uint32. Qed.

Lemma seededRandom_quotient w s :
  seededRandom w s =
  JS.div (JS.of_Z (finalizer_reference (seedToNumber w s)))
         (JS.of_Z 4294967296).
Proof. unfold seededRandom. rewrite final_hash_spec. reflexivity. Qed.

Lemma uint32_digits h : 0 < h < 4294967296 -> 0 < Zdigits2 h <= 32.
Proof.
  intros [Hh Hlt]. destruct (Zdigits2_bounds h Hh) as [Hd [Hlo Hhi]].
  split; [assumption|].
  destruct (Z.le_gt_cases (Zdigits2 h) 32) as [H | H]; [assumption|].
  assert (2 ^ 32 <= 2 ^ (Zdigits2 h - 1)) by (apply Z.pow_le_mono_r; lia).
  change (2 ^ 32) with 4294967296 in *. lia.
Qed.

(** [seededRandom] returns +0 or a positive normal Number
    [mx * 2^(-a)] that is at least [2^-32] below one. *)
Lemma seededRandom_cases w s :
  seededRandom w s = S754_zero false \/
  exists mx a,
    seededRandom w s = S754_finite false mx (- a) /\
    53 <= a <= 84 /\
    2 ^ 52 <= Z.pos mx < 2 ^ 53 /\
    Z.pos mx + 2 ^ (a - 32) <= 2 ^ a /\
    Z.pos mx = finalizer_reference (seedToNumber w s) * 2 ^ (a - 32).
Proof.
  rewrite seededRandom_quotient.
  assert (0 <= finalizer_reference (seedToNumber w s) < 4294967296) as Hh
    by auto with uint32.
  set (h := finalizer_reference (seedToNumber w s)) in *.
  destruct (Z.eq_dec h 0) as [-> | Hne]; [left; reflexivity|].
  right. pose proof (uint32_digits h ltac:(lia)) as Hd.
  assert (0 < h < 2 ^ 53) as Hh53
    by (change (2 ^ 53) with 9007199254740992; lia).
  pose proof (of_Z_small_mantissa h Hh53) as Hm.
  exists (Z.to_pos (h * 2 ^ (53 - Zdigits2 h))), (85 - Zdigits2 h).
  rewrite Z2Pos.id by lia.
  replace (85 - Zdigits2 h - 32) with (53 - Zdigits2 h) by lia.
  split.
  { rewrite div_uint32_two32 by lia. f_equal. lia. }
  split; [lia|]. split; [exact Hm|]. split; [|reflexivity].
  assert (2 ^ (85 - Zdigits2 h) = 4294967296 * 2 ^ (53 - Zdigits2 h)) as Hsplit.
  { change 4294967296 with (2 ^ 32). rewrite <- pow2_split by lia.
    f_equal. lia. }
  pose proof (pow2_pos (53 - Zdigits2 h) ltac:(lia)). nia.
Qed.

(** The rational value of [seededRandom] is the final hash over 2^32. *)
Lemma seededRandom_to_Q w s :
  exists q,
    JS.to_Q (seededRandom w s) = Some q /\
    (q == finalizer_reference (seedToNumber w s) # 4294967296)%Q.
Proof.
  destruct (seededRandom_cases w s) as [Hz | (mx & a & Hx & Ha & Hmx & _ & Hval)].
  - pose proof Hz as Hz'. rewrite seededRandom_quotient in Hz'.
    assert (0 <= finalizer_reference (seedToNumber w s) < 4294967296) as Hh
    by auto with uint32.
    set (h := finalizer_reference (seedToNumber w s)) in *.
    assert (h = 0) as ->.
    { destruct (Z.eq_dec h 0) as [H | H]; [assumption|].
      rewrite div_uint32_two32 in Hz' by lia. discriminate. }
    rewrite Hz. exists 0%Q. split; reflexivity.
  - rewrite Hx. unfold JS.to_Q.
    leb_false.
    eexists. split; [reflexivity|].
    unfold Qeq, cond_Zopp. simpl Qnum. simpl Qden.
    pose proof (pow2_pos a ltac:(lia)) as Hpa.
    rewrite Z.opp_involutive, Z2Pos.id by lia.
    rewrite Hval, <- !Z.mul_assoc. f_equal.
    change (Z.pos 4294967296) with (2 ^ 32).
    rewrite <- pow2_split by lia. f_equal. lia.
Qed.

(** C2: for every string, [seededRandom] is the reference computation on
    [h = seedToNumber(s)]: the script's mixing read through its final
    [>>> 0] is the unsigned finalizer ([h ^= h >> 17], [h *= 0xed5ad4bb],
    [h ^= h >> 11], [h *= 0xac4c1b51], [h ^= h >> 15], [h *= 0x31848bab],
    [h ^= h >> 14], every multiply modulo 2^32), and the returned Number is
    that hash divided by 4294967296, exactly. *)
Theorem seededRandom_is_reference :
  forall (w : world) (s : JS.jsstring),
    JS.ushr (seededRandom_mix (seedToNumber w s)) 0 =
      finalizer_reference (seedToNumber w s) /\
    0 <= finalizer_reference (seedToNumber w s) < 2 ^ 32 /\
    seededRandom w s =
      JS.div (JS.of_Z (finalizer_reference (seedToNumber w s)))
             (JS.of_Z 4294967296) /\
    exists q,
      JS.to_Q (seededRandom w s) = Some q /\
      (q == seededRandom_reference (seedToNumber w s))%Q.
Proof.
  intros w s. split; [apply final_hash_spec|].
  split; [change (2 ^ 32) with 4294967296; auto with uint32|].
  split; [apply seededRandom_quotient|].
  apply seededRandom_to_Q.
Qed.

(** The binary64 comparisons [0 <= x] and [x < 1] on the result. *)
Lemma seededRandom_compare w s :
  SFleb (JS.of_Z 0) (seededRandom w s) = true /\
  SFltb (seededRandom w s) (JS.of_Z 1) = true.
Proof.
  destruct (seededRandom_cases w s) as [-> | (mx & a & -> & Ha & _)].
  - split; reflexivity.
  - split; [reflexivity|].
    rewrite of_Z_one. unfold SFltb, SFcompare.
    replace (- a ?= -52) with Lt; [reflexivity|].
    symmetry. apply Z.compare_lt_iff. lia.
Qed.

(** C3: for every string, [0 <= seededRandom(s) < 1]: the final mixed hash
    is an integer in [0, 2^32 - 1], the returned Number is exactly that
    hash over 2^32, and so it is at least 0 and never reaches 1. *)
Theorem seededRandom_unit_interval :
  forall (w : world) (s : JS.jsstring),
    let h := JS.ushr (seededRandom_mix (seedToNumber w s)) 0 in
    0 <= h <= 4294967295 /\
    (exists q,
        JS.to_Q (seededRandom w s) = Some q /\
        (q == h # 4294967296)%Q /\ (0 <= q)%Q /\ (q < 1)%Q /\ ~ (q == 1)%Q) /\
    SFleb (JS.of_Z 0) (seededRandom w s) = true /\
    SFltb (seededRandom w s) (JS.of_Z 1) = true.
Proof.
  intros w s h.
  pose proof (ushr_range (seededRandom_mix (seedToNumber w s)) 0) as Hh.
  fold h in Hh. split; [lia|]. split; [|apply seededRandom_compare].
  destruct (seededRandom_to_Q w s) as (q & Hq & Hval).
  rewrite <- final_hash_spec in Hval. fold h in Hval.
  clearbody h.
  exists q. split; [exact Hq|]. split; [exact Hval|].
  assert (0 <= h # 4294967296)%Q as H0 by (unfold Qle; simpl; lia).
  assert (h # 4294967296 < 1)%Q as H1 by (unfold Qlt; simpl; lia).
  rewrite Hval. split; [exact H0|]. split; [exact H1|].
  intros Heq. rewrite Heq in H1. apply (Qlt_irrefl 1). exact H1.
Qed.

(** ** The game state resolver *)

Lemma getImposterPlayer_unfold w roomCode roundKey :
  getImposterPlayer w roomCode roundKey =
  JS.add (JS.of_Z 1)
    (JS.floor
       (JS.mul
          (seededRandom w
             (JS.concat (JS.concat roomCode (JS.lit "-imposter-")) roundKey))
          (TOTAL_PLAYERS w))).
Proof. reflexivity. Qed.

(** [1 + Math.floor(seededRandom(seed) * y)] for any seed and any slot
    count [y] holding an integer [N >= 1]. *)
Lemma one_plus_floor_range w seed y N :
  valid_binary 53 1024 y = true -> JS.to_Z y = Some N -> 1 <= N ->
  exists k,
    JS.to_Z (JS.add (JS.of_Z 1) (JS.floor (JS.mul (seededRandom w seed) y)))
      = Some k /\
    1 <= k <= N.
Proof.
  intros Hvalid HN Hpos.
  destruct (seededRandom_cases w seed)
    as [-> | (mx & a & -> & Ha & Hmx & Hgap & _)].
  - rewrite (floor_mul_zero y N) by assumption.
    exists 1. split; [reflexivity | lia].
  - apply (floor_mul_bounds mx a y N); assumption.
Qed.

(** [Math.floor(seededRandom(seed) * y)] under the same conditions. *)
Lemma floor_scaled_range w seed y N :
  valid_binary 53 1024 y = true -> JS.to_Z y = Some N -> 1 <= N ->
  exists i,
    JS.to_Z (JS.floor (JS.mul (seededRandom w seed) y)) = Some i /\
    0 <= i < N.
Proof.
  intros Hvalid HN Hpos.
  destruct (seededRandom_cases w seed)
    as [-> | (mx & a & -> & Ha & Hmx & Hgap & _)].
  - rewrite (floor_mul_zero y N) by assumption.
    exists 0. split; [reflexivity | lia].
  - apply (floor_mul_bounds mx a y N); assumption.
Qed.

(** C4: for every room code, round key and slot count [N >= 1] held by
    [TOTAL_PLAYERS], [getImposterPlayer] is
    [1 + Math.floor(seededRandom(roomCode + "-imposter-" + roundKey) * N)]
    and this Number is an integer in [1, N], with no clamping. *)
Theorem getImposterPlayer_in_range :
  forall (w : world) (roomCode roundKey : JS.jsstring) (N : Z),
    1 <= N ->
    valid_binary 53 1024 (TOTAL_PLAYERS w) = true ->
    JS.to_Z (TOTAL_PLAYERS w) = Some N ->
    getImposterPlayer w roomCode roundKey =
      JS.add (JS.of_Z 1)
        (JS.floor
           (JS.mul
              (seededRandom w
                 (JS.concat (JS.concat roomCode (JS.lit "-imposter-")) roundKey))
              (TOTAL_PLAYERS w))) /\
    exists k,
      JS.to_Z (getImposterPlayer w roomCode roundKey) = Some k /\
      1 <= k <= N.
Proof.
  intros w roomCode roundKey N Hpos Hvalid HN.
  split; [reflexivity|].
  rewrite getImposterPlayer_unfold.
  apply one_plus_floor_range; assumption.
Qed.

Lemma getImposterPlayer_in_range_witness :
  getImposterPlayer (initial_world 0) (JS.lit "PINKFISH") (JS.lit "0") =
    JS.add (JS.of_Z 1)
      (JS.floor
         (JS.mul
            (seededRandom (initial_world 0)
               (JS.concat (JS.concat (JS.lit "PINKFISH") (JS.lit "-imposter-"))
                          (JS.lit "0")))
            (TOTAL_PLAYERS (initial_world 0)))) /\
  exists k,
    JS.to_Z (getImposterPlayer (initial_world 0) (JS.lit "PINKFISH")
                               (JS.lit "0")) = Some k /\
    1 <= k <= 6.
Proof.
  apply (getImposterPlayer_in_range
           (initial_world 0) (JS.lit "PINKFISH") (JS.lit "0") 6).
  - lia.
  - reflexivity.
  - reflexivity.
Defined.


(** ** Slot counts below 2^21: no rounding at all *)

(** When [h * N] is a safe integer, the product of [h / 2^32] and [N] is
    exact. *)
Lemma mul_exact mx a h N :
  53 <= a <= 84 ->
  2 ^ 52 <= Z.pos mx < 2 ^ 53 -> Z.pos mx = h * 2 ^ (a - 32) ->
  0 < h -> 1 <= N -> h * N < 2 ^ 53 ->
  JS.mul (S754_finite false mx (- a)) (JS.of_Z N) =
  S754_finite false (Z.to_pos (h * N * 2 ^ (53 - Zdigits2 (h * N))))
              (Zdigits2 (h * N) - 85).
Proof.
  intros Ha Hmx Hval Hh HN Hsafe.
  assert (0 < N < 2 ^ 53) as HN53 by nia.
  assert (0 < h * N < 2 ^ 53) as Hc53 by nia.
  pose proof (digits_small N HN53) as HdN.
  pose proof (digits_small (h * N) Hc53) as Hdc.
  pose proof (of_Z_small_mantissa N HN53) as HmN.
  pose proof (of_Z_small_mantissa (h * N) Hc53) as Hmc.
  rewrite (of_Z_small N) by assumption.
  unfold JS.mul, SFmul. change (xorb false false) with false.
  rewrite Pos2Z.inj_mul, Z2Pos.id by lia.
  set (c := h * N) in *. set (dc := Zdigits2 c) in *.
  set (dN := Zdigits2 N) in *.
  set (j := a - 32 + (53 - dN)).
  pose proof (pow2_pos (a - 32) ltac:(lia)) as Hp1.
  pose proof (pow2_pos (53 - dN) ltac:(lia)) as Hp2.
  assert (Z.pos mx * (N * 2 ^ (53 - dN)) = c * 2 ^ j) as HP.
  { unfold j, c. rewrite pow2_split, Hval by lia. ring. }
  rewrite HP.
  assert (Zdigits2 (c * 2 ^ j) = dc + j) as HdP by (apply digits_shift; lia).
  assert (2 ^ 104 <= c * 2 ^ j) as HPlo.
  { rewrite <- HP. change (2 ^ 104) with (2 ^ 52 * 2 ^ 52). nia. }
  assert (105 <= dc + j) as Hd105.
  { destruct (Zdigits2_bounds (c * 2 ^ j) ltac:(lia)) as [_ [_ Hhi]].
    rewrite HdP in Hhi.
    destruct (Z.le_gt_cases 105 (dc + j)) as [H | H]; [assumption|].
    assert (2 ^ (dc + j) <= 2 ^ 104) by (apply Z.pow_le_mono_r; lia). lia. }
  set (n := dc + j - 53).
  pose proof (pow2_pos n ltac:(lia)) as Hpn.
  assert (c * 2 ^ j = c * 2 ^ (53 - dc) * 2 ^ n) as Hfac.
  { rewrite <- Z.mul_assoc, <- pow2_split by lia. do 2 f_equal. lia. }
  assert (round_shift (c * 2 ^ j) n = c * 2 ^ (53 - dc)) as Hrs.
  { rewrite round_shift_exact by (try lia; rewrite Hfac; apply Z.mod_mul; lia).
    rewrite Hfac. apply Z.div_mul. lia. }
  rewrite round_aux_long_nocarry; rewrite ?HdP; fold n; rewrite ?Hrs; try lia.
  f_equal. unfold n, j. lia.
Qed.

(** For a slot count below 2^21 the floor of the product is the integer
    quotient [(h * N) / 2^32], with [h] the final hash. *)
Lemma floor_mul_exact w seed N :
  1 <= N < 2 ^ 21 ->
  JS.floor (JS.mul (seededRandom w seed) (JS.of_Z N)) =
  JS.of_Z (finalizer_reference (seedToNumber w seed) * N / 2 ^ 32).
Proof.
  intros HN.
  assert (0 <= finalizer_reference (seedToNumber w seed) < 4294967296) as Hh
    by auto with uint32.
  assert (0 < N < 2 ^ 53) as HN53.
  { change (2 ^ 21) with 2097152 in HN.
    change (2 ^ 53) with 9007199254740992. lia. }
  destruct (seededRandom_cases w seed)
    as [Hz | (mx & a & Hx & Ha & Hmx & _ & Hval)].
  - (* the final hash is zero *)
    pose proof Hz as Hz'. rewrite seededRandom_quotient in Hz'.
    set (h := finalizer_reference (seedToNumber w seed)) in *.
    assert (h = 0) as ->.
    { destruct (Z.eq_dec h 0) as [H | H]; [assumption|].
      rewrite div_uint32_two32 in Hz' by lia. discriminate. }
    rewrite Hz, (of_Z_small N) by assumption. reflexivity.
  - set (h := finalizer_reference (seedToNumber w seed)) in *.
    pose proof (pow2_pos (a - 32) ltac:(lia)) as Hp.
    assert (0 < h) as Hhpos by nia.
    assert (h * N < 2 ^ 53) as Hsafe.
    { change (2 ^ 53) with (4294967296 * 2 ^ 21). nia. }
    assert (0 < h * N < 2 ^ 53) as Hc53 by nia.
    pose proof (digits_small (h * N) Hc53) as Hdc.
    rewrite Hx, (mul_exact mx a h N) by (assumption || lia).
    rewrite floor_fraction by lia.
    pose proof (pow2_pos (53 - Zdigits2 (h * N)) ltac:(lia)) as Hpc.
    rewrite Z2Pos.id by nia.
    replace (- (Zdigits2 (h * N) - 85)) with (32 + (53 - Zdigits2 (h * N))) by lia.
    rewrite pow2_split by lia.
    rewrite Z.div_mul_cancel_r by lia. reflexivity.
Qed.

(** ** The resolver on the slot counts of the game *)

(** The index of [getSecretWord] is the integer quotient [(h * 50) / 2^32],
    with [h] the final hash of the word seed. *)
Lemma wordIndex_exact w roomCode roundKey :
  wordIndex w roomCode roundKey =
  JS.of_Z
    (finalizer_reference
       (seedToNumber w
          (JS.concat (JS.concat roomCode (JS.lit "-word-")) roundKey))
     * 50 / 2 ^ 32).
Proof.
  unfold wordIndex.
  change (JS.of_Z (Z.of_nat (List.length wordList))) with (JS.of_Z 50).
  apply floor_mul_exact. change (2 ^ 21) with 2097152. lia.
Qed.

(** For a slot count below 2^21 (the slider offers 3 to 6) the imposter is
    player [1 + (h * N) / 2^32], with [h] the final hash of the imposter
    seed. *)
Lemma getImposterPlayer_exact w roomCode roundKey N :
  1 <= N < 2 ^ 21 -> TOTAL_PLAYERS w = JS.of_Z N ->
  JS.to_Z (getImposterPlayer w roomCode roundKey) =
  Some (1 +
        finalizer_reference
          (seedToNumber w
             (JS.concat (JS.concat roomCode (JS.lit "-imposter-")) roundKey))
        * N / 2 ^ 32).
Proof.
  intros HN Hplayers. rewrite getImposterPlayer_unfold, Hplayers.
  rewrite floor_mul_exact by assumption.
  set (seed := JS.concat (JS.concat roomCode (JS.lit "-imposter-")) roundKey).
  assert (0 <= finalizer_reference (seedToNumber w seed) < 4294967296) as Hh
    by auto with uint32.
  set (h := finalizer_reference (seedToNumber w seed)) in *.
  assert (0 <= h * N / 2 ^ 32 < N) as HF.
  { change (2 ^ 32) with 4294967296. split.
    - apply Z.div_pos; nia.
    - apply Z.div_lt_upper_bound; nia. }
  rewrite add_one_to_Z.
  - f_equal. lia.
  - lia.
  - change (2 ^ 21) with 2097152 in HN.
    change (2 ^ 53) with 9007199254740992. lia.
Qed.

Lemma wordList_length : List.length wordList = 50%nat.
Proof. reflexivity. Qed.

(** C5: for every room code and round key, the index computed by
    [getSecretWord] is an integer in [0, wordList.length - 1], that is in
    [0, 49], so the lookup is in bounds and [getSecretWord] returns an
    element of the word table, never [undefined]. *)
Theorem getSecretWord_in_bounds :
  forall (w : world) (roomCode roundKey : JS.jsstring),
    exists (i : Z) (word : string),
      JS.to_Z (wordIndex w roomCode roundKey) = Some i /\
      0 <= i <= Z.of_nat (List.length wordList) - 1 /\
      0 <= i <= 49 /\
      getSecretWord w roomCode roundKey = Some word /\
      nth_error wordList (Z.to_nat i) = Some word /\
      In word wordList.
Proof.
  intros w roomCode roundKey.
  unfold getSecretWord, wordIndex.
  set (seed := JS.concat (JS.concat roomCode (JS.lit "-word-")) roundKey).
  change (JS.of_Z (Z.of_nat (List.length wordList))) with (JS.of_Z 50).
  destruct (floor_scaled_range w seed (JS.of_Z 50) 50) as (i & Hi & Hrange);
    [reflexivity | reflexivity | lia |].
  destruct (nth_error wordList (Z.to_nat i)) as [word|] eqn:Hnth.
  - exists i, word. split; [exact Hi|].
    rewrite wordList_length. split; [lia|]. split; [lia|].
    split.
    + unfold JS.index. rewrite Hi.
      leb_true.
      exact Hnth.
    + split; [exact Hnth|]. apply (nth_error_In _ _ Hnth).
  - apply nth_error_None in Hnth. rewrite wordList_length in Hnth. lia.
Qed.

(** C8: [seededRandom] is deterministic: two runs on the same seed, in any
    two worlds (any value of the mutable global, any clock reading), return
    the same Number. *)
Theorem seededRandom_deterministic :
  forall (w1 w2 : world) (s : JS.jsstring),
    seededRandom w1 s = seededRandom w2 s.
Proof.
  intros w1 w2 s. unfold seededRandom, seedToNumber. reflexivity.
Qed.

(** C10: the player-count configuration does not influence word
    selection: two runs of [getSecretWord] on the same room code and round
    key, after [TOTAL_PLAYERS] was set to any two values, return the same
    word. *)
Theorem getSecretWord_ignores_TOTAL_PLAYERS :
  forall (w : world) (players1 players2 : JS.number)
         (roomCode roundKey : JS.jsstring),
    getSecretWord (updateTotalPlayers players1 w) roomCode roundKey =
    getSecretWord (updateTotalPlayers players2 w) roomCode roundKey.
Proof.
  intros w players1 players2 roomCode roundKey.
  unfold getSecretWord, wordIndex, seededRandom, seedToNumber. reflexivity.
Qed.

(** ** Pinned vectors *)

(** Room ["PINKFISH"], round ["0"], six players, the fifty-word table in
    document order: the imposter is player 1 and the word is the ninth of
    the table. *)
Example getImposterPlayer_PINKFISH_0 :
  JS.to_Z (getImposterPlayer (initial_world 0) (JS.lit "PINKFISH") (JS.lit "0"))
  = Some 1.
Proof. vm_compute. reflexivity. Qed.

Example getSecretWord_PINKFISH_0 :
  getSecretWord (initial_world 0) (JS.lit "PINKFISH") (JS.lit "0")
  = Some "submarine"%string.
Proof. vm_compute. reflexivity. Qed.

(** A slot count above 2^53, where the product rounds: the result is still
    an integer within the slots. *)
Example getImposterPlayer_large_slot_count :
  JS.to_Z
    (getImposterPlayer (updateTotalPlayers (JS.of_Z (3 * 2 ^ 70)) (initial_world 0))
                       (JS.lit "PINKFISH") (JS.lit "0"))
  = Some 133210412621236273152.
Proof. vm_compute. reflexivity. Qed.

(** ** Sensitivity of the hash core *)

(** Multiplication by a unit modulo 2^32 can be undone. *)
Lemma mul_mod32_cancel c cinv x y :
  (c * cinv) mod 2 ^ 32 = 1 ->
  (x * c) mod 2 ^ 32 = (y * c) mod 2 ^ 32 ->
  x mod 2 ^ 32 = y mod 2 ^ 32.
Proof.
  intros Hinv Heq.
  assert (forall z, ((z * c) mod 2 ^ 32 * cinv) mod 2 ^ 32 = z mod 2 ^ 32) as Hundo.
  { intros z. rewrite Z.mul_mod_idemp_l by lia.
    rewrite <- Z.mul_assoc, <- Z.mul_mod_idemp_r, Hinv by lia.
    rewrite Z.mul_1_r. reflexivity. }
  rewrite <- (Hundo x), <- (Hundo y), Heq. reflexivity.
Qed.

Lemma add_mod32_cancel a x y :
  (x + a) mod 2 ^ 32 = (y + a) mod 2 ^ 32 -> x mod 2 ^ 32 = y mod 2 ^ 32.
Proof.
  intros Heq.
  assert (forall z, ((z + a) mod 2 ^ 32 - a) mod 2 ^ 32 = z mod 2 ^ 32) as Hundo.
  { intros z. rewrite Zminus_mod_idemp_l. f_equal. lia. }
  rewrite <- (Hundo x), <- (Hundo y), Heq. reflexivity.
Qed.

(** The loop body of [seedToNumber] is injective in the running hash. *)
Lemma seedToNumber_step_inj_hash h1 h2 c :
  0 <= h1 < 4294967296 -> 0 <= h2 < 4294967296 ->
  seedToNumber_step h1 c = seedToNumber_step h2 c -> h1 = h2.
Proof.
  intros H1 H2 Heq. rewrite !seedToNumber_step_spec in Heq.
  apply add_mod32_cancel in Heq.
  apply (mul_mod32_cancel 33 1041204193) in Heq; [|reflexivity].
  change (2 ^ 32) with 4294967296 in Heq.
  rewrite !Z.mod_small in Heq by assumption. exact Heq.
Qed.

(** ... and injective in the character, for characters below 2^32. *)
Lemma seedToNumber_step_inj_char h c1 c2 :
  0 <= c1 < 4294967296 -> 0 <= c2 < 4294967296 ->
  seedToNumber_step h c1 = seedToNumber_step h c2 -> c1 = c2.
Proof.
  intros H1 H2 Heq. rewrite !seedToNumber_step_spec in Heq.
  rewrite !(Z.add_comm (h * 33)) in Heq.
  apply add_mod32_cancel in Heq.
  change (2 ^ 32) with 4294967296 in Heq.
  rewrite !Z.mod_small in Heq by assumption. exact Heq.
Qed.

Lemma seedToNumber_step_range h c : 0 <= seedToNumber_step h c < 4294967296.
Proof. unfold seedToNumber_step. apply ushr_range. Qed.

(** Hashing the same suffix from two different running hashes keeps them
    different. *)
Lemma fold_step_inj suffix : forall h1 h2,
  0 <= h1 < 4294967296 -> 0 <= h2 < 4294967296 ->
  fold_left seedToNumber_step suffix h1 = fold_left seedToNumber_step suffix h2 ->
  h1 = h2.
Proof.
  induction suffix as [|c suffix IH]; intros h1 h2 H1 H2 Heq; simpl in Heq.
  - exact Heq.
  - apply IH in Heq; try apply seedToNumber_step_range.
    apply (seedToNumber_step_inj_hash h1 h2 c); assumption.
Qed.

Lemma seedToNumber_app w a b :
  seedToNumber w (a ++ b) = fold_left seedToNumber_step b (seedToNumber w a).
Proof. unfold seedToNumber. apply fold_left_app. Qed.

(** X1: replacing one character of the seed by a different one, at any
    position, always changes [seedToNumber]. *)
Theorem seedToNumber_single_character (w : world) (a b : JS.jsstring) (c1 c2 : Z) :
  JS.is_code_unit c1 -> JS.is_code_unit c2 -> c1 <> c2 ->
  seedToNumber w (JS.concat a (c1 :: b)) <> seedToNumber w (JS.concat a (c2 :: b)).
Proof.
  unfold JS.is_code_unit, JS.concat. intros Hc1 Hc2 Hne Heq.
  rewrite !seedToNumber_app in Heq. simpl in Heq.
  apply fold_step_inj in Heq; try apply seedToNumber_step_range.
  apply seedToNumber_step_inj_char in Heq; lia.
Qed.

Lemma seedToNumber_single_character_witness :
  seedToNumber (initial_world 0) (JS.concat (JS.lit "PINK") (70 :: JS.lit "ISH")) <>
  seedToNumber (initial_world 0) (JS.concat (JS.lit "PINK") (68 :: JS.lit "ISH")).
Proof.
  apply (seedToNumber_single_character (initial_world 0)
           (JS.lit "PINK") (JS.lit "ISH") 70 68);
    unfold JS.is_code_unit; lia.
Defined.

(** *** The finalizer loses nothing *)

Lemma uint32_high_bits x i :
  0 <= x < 4294967296 -> 32 <= i -> Z.testbit x i = false.
Proof.
  intros Hx Hi. rewrite <- (Z.mod_small x (2 ^ 32)) by (change (2 ^ 32) with 4294967296; lia).
  apply Z.mod_pow2_bits_high. lia.
Qed.

Lemma uint32_of_bits x :
  0 <= x -> (forall i, 32 <= i -> Z.testbit x i = false) -> x < 4294967296.
Proof.
  intros Hx Hbits.
  destruct (Z.lt_ge_cases x 4294967296) as [H | H]; [assumption|].
  assert (32 <= Z.log2 x) as Hlog.
  { apply Z.log2_le_pow2; [lia|]. change (2 ^ 32) with 4294967296. lia. }
  pose proof (Z.bit_log2 x ltac:(lia)) as Hbit.
  rewrite Hbits in Hbit by assumption. discriminate.
Qed.

(** [h ^ (h >> k)] stays an unsigned 32-bit integer. *)
Lemma xorshift_range h k :
  0 <= h < 4294967296 -> 0 <= k ->
  0 <= Z.lxor h (Z.shiftr h k) < 4294967296.
Proof.
  intros Hh Hk.
  assert (0 <= Z.shiftr h k) as Hs by (apply Z.shiftr_nonneg; lia).
  assert (0 <= Z.lxor h (Z.shiftr h k)) as Hnn by (apply Z.lxor_nonneg; lia).
  split; [assumption|]. apply uint32_of_bits; [assumption|].
  intros i Hi. rewrite Z.lxor_spec, Z.shiftr_spec by lia.
  rewrite !uint32_high_bits by lia. reflexivity.
Qed.

(** [h ^ (h >> k)] with [k > 0] is injective on unsigned 32-bit integers:
    the top [k] bits are those of [h], and each lower bit is recovered
    from the bit [k] places above it. *)
Lemma xorshift_inj h1 h2 k :
  0 <= h1 < 4294967296 -> 0 <= h2 < 4294967296 -> 0 < k ->
  Z.lxor h1 (Z.shiftr h1 k) = Z.lxor h2 (Z.shiftr h2 k) -> h1 = h2.
Proof.
  intros H1 H2 Hk Heq.
  assert (forall n : nat, forall i, 32 - Z.of_nat n <= i ->
            Z.testbit h1 i = Z.testbit h2 i) as Hbits.
  { induction n as [|n IH]; intros i Hi.
    - rewrite !uint32_high_bits by lia. reflexivity.
    - destruct (Z.le_gt_cases (32 - Z.of_nat n) i) as [Hhigh | Hlow].
      + apply IH. assumption.
      + destruct (Z.lt_ge_cases i 0) as [Hneg | Hnn].
        * rewrite !Z.testbit_neg_r by assumption. reflexivity.
        * assert (Z.testbit (Z.lxor h1 (Z.shiftr h1 k)) i =
                  Z.testbit (Z.lxor h2 (Z.shiftr h2 k)) i) as Hi'
            by (rewrite Heq; reflexivity).
          rewrite !Z.lxor_spec, !Z.shiftr_spec in Hi' by assumption.
          rewrite (IH (i + k)) in Hi' by lia.
          destruct (Z.testbit h1 i), (Z.testbit h2 i), (Z.testbit h2 (i + k));
            simpl in Hi'; congruence. }
  apply Z.bits_inj'. intros i Hi.
  apply (Hbits (Z.to_nat 32 + Z.to_nat i)%nat). lia.
Qed.

(** Multiplication by one of the three odd constants, modulo 2^32, is
    injective on unsigned 32-bit integers. *)
Lemma mix_mul_inj c cinv h1 h2 :
  (c * cinv) mod 2 ^ 32 = 1 ->
  0 <= h1 < 4294967296 -> 0 <= h2 < 4294967296 ->
  (h1 * c) mod 2 ^ 32 = (h2 * c) mod 2 ^ 32 -> h1 = h2.
Proof.
  intros Hinv H1 H2 Heq. apply (mul_mod32_cancel c cinv) in Heq; [|assumption].
  change (2 ^ 32) with 4294967296 in Heq.
  rewrite !Z.mod_small in Heq by assumption. exact Heq.
Qed.

Lemma finalizer_reference_inj h1 h2 :
  0 <= h1 < 4294967296 -> 0 <= h2 < 4294967296 ->
  finalizer_reference h1 = finalizer_reference h2 -> h1 = h2.
Proof.
  intros H1 H2 Heq. unfold finalizer_reference in Heq.
  apply xorshift_inj in Heq; try lia; try apply mod32_range.
  apply (mix_mul_inj 0x31848bab 850532099) in Heq;
    [| reflexivity | apply xorshift_range; (apply mod32_range || lia) ..].
  apply xorshift_inj in Heq; try lia; try apply mod32_range.
  apply (mix_mul_inj 0xac4c1b51 1184763313) in Heq;
    [| reflexivity | apply xorshift_range; (apply mod32_range || lia) ..].
  apply xorshift_inj in Heq; try lia; try apply mod32_range.
  apply (mix_mul_inj 0xed5ad4bb 2041073779) in Heq;
    [| reflexivity | apply xorshift_range; lia ..].
  apply xorshift_inj in Heq; try lia.
Qed.

(** X2: the seven mixing statements of [seededRandom] lose nothing: two
    different unsigned 32-bit hashes are mixed to two different unsigned
    32-bit values. *)
Theorem seededRandom_mix_injective (h1 h2 : Z) :
  0 <= h1 < 4294967296 -> 0 <= h2 < 4294967296 -> h1 <> h2 ->
  JS.ushr (seededRandom_mix h1) 0 <> JS.ushr (seededRandom_mix h2) 0.
Proof.
  intros H1 H2 Hne Heq. rewrite !seededRandom_mix_spec in Heq by assumption.
  apply Hne. apply finalizer_reference_inj; assumption.
Qed.

Lemma seededRandom_mix_injective_witness :
  JS.ushr (seededRandom_mix 5381) 0 <> JS.ushr (seededRandom_mix 177638) 0.
Proof.
  apply (seededRandom_mix_injective 5381 177638); lia.
Defined.

(** Two runs of [seededRandom] return the same Number exactly when the
    two seeds have the same [seedToNumber]. *)
Lemma seededRandom_eq_hash w1 w2 s1 s2 :
  seededRandom w1 s1 = seededRandom w2 s2 ->
  seedToNumber w1 s1 = seedToNumber w2 s2.
Proof.
  intros Heq.
  destruct (seededRandom_to_Q w1 s1) as (q1 & Hq1 & Hv1).
  destruct (seededRandom_to_Q w2 s2) as (q2 & Hq2 & Hv2).
  rewrite Heq, Hq2 in Hq1. apply Some_eq_inv in Hq1. subst q1.
  rewrite Hv2 in Hv1. unfold Qeq in Hv1. simpl in Hv1.
  apply finalizer_reference_inj; try apply seedToNumber_range.
  apply (Z.mul_reg_r _ _ 4294967296); [lia | symmetry; exact Hv1].
Qed.

(** X3: [seededRandom] collides exactly where [seedToNumber] does: the
    mixing and the division by 2^32 never merge two hashes. *)
Theorem seededRandom_collides_iff :
  forall (w : world) (s1 s2 : JS.jsstring),
    seededRandom w s1 = seededRandom w s2 <->
    seedToNumber w s1 = seedToNumber w s2.
Proof.
  intros w s1 s2. split.
  - apply seededRandom_eq_hash.
  - intros Heq. unfold seededRandom. rewrite Heq. reflexivity.
Qed.

(** X4: replacing one character of the seed by a different one, at any
    position, always changes the Number returned by [seededRandom]. *)
Theorem seededRandom_single_character
        (w : world) (a b : JS.jsstring) (c1 c2 : Z) :
  JS.is_code_unit c1 -> JS.is_code_unit c2 -> c1 <> c2 ->
  seededRandom w (JS.concat a (c1 :: b)) <> seededRandom w (JS.concat a (c2 :: b)).
Proof.
  intros Hc1 Hc2 Hne Heq. apply seededRandom_eq_hash in Heq.
  unfold JS.is_code_unit, JS.concat in *.
  rewrite !seedToNumber_app in Heq. simpl in Heq.
  apply fold_step_inj in Heq; try apply seedToNumber_step_range.
  apply seedToNumber_step_inj_char in Heq; lia.
Qed.

Lemma seededRandom_single_character_witness :
  seededRandom (initial_world 0) (JS.concat (JS.lit "PINK") (70 :: JS.lit "ISH")) <>
  seededRandom (initial_world 0) (JS.concat (JS.lit "PINK") (68 :: JS.lit "ISH")).
Proof.
  apply (seededRandom_single_character (initial_world 0)
           (JS.lit "PINK") (JS.lit "ISH") 70 68);
    unfold JS.is_code_unit; lia.
Defined.

(** ** More on the round clock *)

(** Inside the window [k * W <= t < (k + 1) * W] the round number is [k]. *)
Lemma roundNumberAt_in_window (W t k : Z) :
  0 < W -> k * W <= t < (k + 1) * W -> roundNumberAt W t = k.
Proof.
  intros HW Hk. unfold roundNumberAt.
  symmetry. apply (Z.div_unique t W k (t - k * W)); lia.
Qed.

(** The two floors of [getCurrentRoundNumber] compose into one. *)
Lemma roundNumber_of_milliseconds (w : world) :
  getCurrentRoundNumber w = Date_now w / 120000.
Proof.
  unfold getCurrentRoundNumber, roundNumberAt, currentUnixSeconds,
    ROUND_LENGTH_SECONDS.
  rewrite Z.div_div by lia. reflexivity.
Qed.

(** X5: the round number at window length [W > 0] is [k] exactly on the
    window [k * W <= t < (k + 1) * W], for clock readings of either sign. *)
Theorem roundNumberAt_window (W t k : Z) :
  0 < W -> (roundNumberAt W t = k <-> k * W <= t < (k + 1) * W).
Proof.
  intros HW. split.
  - intros <-. unfold roundNumberAt.
    pose proof (Z.div_mod t W ltac:(lia)) as Hdm.
    pose proof (Z.mod_pos_bound t W HW) as Hb.
    nia.
  - apply roundNumberAt_in_window. exact HW.
Qed.

Lemma roundNumberAt_window_witness :
  roundNumberAt 120 1700000000 = 14166666 <->
  14166666 * 120 <= 1700000000 < (14166666 + 1) * 120.
Proof. apply (roundNumberAt_window 120 1700000000 14166666). lia. Defined.

(** X6: from a clock reading [t >= 0] the round number stays the same for
    every delay shorter than the countdown, and is one more exactly when
    the countdown has elapsed. *)
Theorem round_changes_when_countdown_elapses (W t d : Z) :
  0 <= t -> 0 < W -> 0 <= d <= secondsUntilNextRoundAt W t ->
  roundNumberAt W (t + d) =
  roundNumberAt W t + (if d =? secondsUntilNextRoundAt W t then 1 else 0).
Proof.
  intros Ht HW Hd. rewrite secondsUntilNextRoundAt_mod in * by assumption.
  pose proof (Z.div_mod t W ltac:(lia)) as Hdm.
  pose proof (Z.mod_pos_bound t W HW) as Hb.
  destruct (Z.eqb_spec d (W - t mod W)) as [Heq | Hne].
  - apply roundNumberAt_in_window; [assumption|]. unfold roundNumberAt. nia.
  - apply roundNumberAt_in_window; [assumption|]. unfold roundNumberAt. nia.
Qed.

Lemma round_changes_when_countdown_elapses_witness :
  roundNumberAt 120 (1700000000 + 39) =
  roundNumberAt 120 1700000000 +
  (if 39 =? secondsUntilNextRoundAt 120 1700000000 then 1 else 0).
Proof.
  apply (round_changes_when_countdown_elapses 120 1700000000 39);
    [lia | lia | vm_compute; split; discriminate].
Defined.

(** X7: one second later the countdown is one less, except from 1, where
    it starts again at the window length. *)
Theorem countdown_ticks (W t : Z) :
  0 <= t -> 0 < W ->
  secondsUntilNextRoundAt W (t + 1) =
  if secondsUntilNextRoundAt W t =? 1 then W
  else secondsUntilNextRoundAt W t - 1.
Proof.
  intros Ht HW. rewrite !secondsUntilNextRoundAt_mod by lia.
  pose proof (Z.div_mod t W ltac:(lia)) as Hdm.
  pose proof (Z.mod_pos_bound t W HW) as Hb.
  destruct (Z.eqb_spec (W - t mod W) 1) as [Hlast | Hnot].
  - assert ((t + 1) mod W = 0) as ->; [|lia].
    symmetry. apply (Z.mod_unique (t + 1) W (t / W + 1) 0); lia.
  - assert ((t + 1) mod W = t mod W + 1) as ->; [|lia].
    symmetry. apply (Z.mod_unique (t + 1) W (t / W) (t mod W + 1)); lia.
Qed.

Lemma countdown_ticks_witness :
  secondsUntilNextRoundAt 120 (119 + 1) =
  if secondsUntilNextRoundAt 120 119 =? 1 then 120
  else secondsUntilNextRoundAt 120 119 - 1.
Proof. apply (countdown_ticks 120 119); lia. Defined.

(** X8: before the epoch ([t < 0]) JavaScript's truncating [%] makes the
    countdown overshoot: it lies in [W, 2W - 1], not in [1, W]. *)
Theorem countdown_before_epoch (W t : Z) :
  t < 0 -> 0 < W ->
  W <= secondsUntilNextRoundAt W t <= 2 * W - 1.
Proof.
  intros Ht HW. unfold secondsUntilNextRoundAt.
  pose proof (Z.rem_bound_pos_neg t W HW ltac:(lia)). lia.
Qed.

Lemma countdown_before_epoch_witness :
  120 <= secondsUntilNextRoundAt 120 (-1) <= 2 * 120 - 1.
Proof. apply (countdown_before_epoch 120 (-1)); lia. Defined.

(** X9: in milliseconds, the round number is the clock reading over
    120000 and, from the epoch on, the countdown is 120 less the whole
    seconds elapsed in the window of 120000 milliseconds. *)
Theorem round_clock_in_milliseconds (w : world) :
  0 <= Date_now w ->
  getCurrentRoundNumber w = Date_now w / 120000 /\
  getSecondsUntilNextRound w = 120 - (Date_now w mod 120000) / 1000.
Proof.
  intros Hnow. split; [apply roundNumber_of_milliseconds|].
  unfold getSecondsUntilNextRound, secondsUntilNextRoundAt, currentUnixSeconds,
    ROUND_LENGTH_SECONDS.
  assert (0 <= Date_now w / 1000) as Hs by (apply Z.div_pos; lia).
  rewrite Z.rem_mod_nonneg by lia.
  change 120000 with (1000 * 120).
  rewrite Z.rem_mul_r by lia.
  rewrite Z.mul_comm, Z.div_add by lia.
  rewrite (Z.div_small (Date_now w mod 1000) 1000)
    by (apply Z.mod_pos_bound; lia).
  reflexivity.
Qed.

Lemma round_clock_in_milliseconds_witness :
  getCurrentRoundNumber (initial_world 1700000080500) =
    1700000080500 / 120000 /\
  getSecondsUntilNextRound (initial_world 1700000080500) =
    120 - (1700000080500 mod 120000) / 1000.
Proof.
  apply (round_clock_in_milliseconds (initial_world 1700000080500)).
  simpl. lia.
Defined.

(** ** Round keys and seeds *)

Lemma String_of_integer_inj a b :
  Host.String_of_integer a = Host.String_of_integer b -> a = b.
Proof.
  unfold Host.String_of_integer. intros Heq. apply to_int_inj.
  assert (forall n, NilZero.int_of_string (NilZero.string_of_int (Z.to_int n))
                    = Some (Z.to_int n)) as Hparse.
  { intros n. apply NilZero.isi; destruct n as [|p|p]; simpl; try discriminate;
      intros H; injection H; apply Unsigned.to_uint_nonnil. }
  apply Some_eq_inv. rewrite <- !Hparse, Heq. reflexivity.
Qed.

Lemma lit_inj s1 s2 : JS.lit s1 = JS.lit s2 -> s1 = s2.
Proof.
  unfold JS.lit. intros Heq.
  rewrite <- (string_of_list_ascii_of_string s1),
          <- (string_of_list_ascii_of_string s2).
  f_equal. revert Heq.
  generalize (list_ascii_of_string s1) as l1, (list_ascii_of_string s2) as l2.
  induction l1 as [|a l1 IH]; intros [|b l2] Heq; simpl in Heq;
    try discriminate; [reflexivity|].
  injection Heq as Hab Hl. f_equal; [|apply IH; assumption].
  apply N2Z.inj in Hab.
  rewrite <- (ascii_N_embedding a), <- (ascii_N_embedding b), Hab. reflexivity.
Qed.

(** X10: for a given room code and tag, two runs build the same seed
    exactly when they are in the same round: [String(roundNumber)] never
    maps two round numbers to one round key. *)
Theorem seeds_equal_iff_same_round :
  forall (w1 w2 : world) (roomCode tag : JS.jsstring),
    JS.concat (JS.concat roomCode tag) (roundKey w1) =
    JS.concat (JS.concat roomCode tag) (roundKey w2)
    <-> getCurrentRoundNumber w1 = getCurrentRoundNumber w2.
Proof.
  intros w1 w2 roomCode tag. unfold JS.concat, roundKey. split.
  - intros Heq. apply app_inv_head in Heq. apply lit_inj in Heq.
    apply String_of_integer_inj. exact Heq.
  - intros ->. reflexivity.
Qed.

(** X11: for a given room code, the imposter seed and the word seed are
    never the same string, whatever the round keys. *)
Theorem imposter_seed_is_not_word_seed :
  forall (roomCode roundKey1 roundKey2 : JS.jsstring),
    JS.concat (JS.concat roomCode (JS.lit "-imposter-")) roundKey1 <>
    JS.concat (JS.concat roomCode (JS.lit "-word-")) roundKey2.
Proof.
  intros roomCode roundKey1 roundKey2. unfold JS.concat.
  rewrite <- !app_assoc. intros Heq. apply app_inv_head in Heq.
  simpl in Heq. discriminate Heq.
Qed.

(** ** Validity and order of the Numbers of the resolver *)

Lemma normal_valid s m e :
  2 ^ 52 <= Z.pos m < 2 ^ 53 -> -1074 <= e <= 971 ->
  valid_binary 53 1024 (S754_finite s m e) = true.
Proof.
  intros Hm He. unfold valid_binary, bounded, canonical_mantissa.
  change (Z.pos (digits2_pos m)) with (Zdigits2 (Z.pos m)).
  rewrite (Zdigits2_unique (Z.pos m) 53) by lia.
  unfold fexp, emin. apply andb_true_iff. split.
  - apply Z.eqb_eq. lia.
  - apply Z.leb_le. lia.
Qed.

Lemma of_Z_small_valid k :
  0 < k < 2 ^ 53 -> valid_binary 53 1024 (JS.of_Z k) = true.
Proof.
  intros Hk. pose proof (digits_small k Hk) as Hd.
  pose proof (of_Z_small_mantissa k Hk) as Hm.
  rewrite of_Z_small by assumption.
  apply normal_valid; [rewrite Z2Pos.id by lia; exact Hm | lia].
Qed.

(** [1 + y] for an integral normal [y = my * 2^ey], [ey >= 1], is again a
    normal Number. *)
Lemma add_one_large_normal my ey :
  2 ^ 52 <= Z.pos my < 2 ^ 53 -> 1 <= ey <= 971 ->
  (Z.pos my + 1 = 2 ^ 53 -> ey < 971) ->
  exists m' e',
    JS.add (JS.of_Z 1) (S754_finite false my ey) = S754_finite false m' e' /\
    2 ^ 52 <= Z.pos m' < 2 ^ 53 /\ ey <= e' <= 971.
Proof.
  intros Hmy Hey Htop.
  rewrite add_one_sum by lia.
  set (n := ey + 52).
  set (S := 2 ^ 52 + Z.pos my * 2 ^ n).
  pose proof (pow2_pos n ltac:(lia)) as Hpn.
  pose proof (pow2_pos ey ltac:(lia)) as Hpe.
  assert (2 ^ n = 2 ^ ey * 2 ^ 52) as Hn by (apply pow2_split; lia).
  assert (2 <= 2 ^ ey) as H2e.
  { change 2 with (2 ^ 1) at 1. apply Z.pow_le_mono_r; lia. }
  assert (2 ^ 52 < 2 ^ n) as H52 by lia.
  assert (Zdigits2 S = n + 53) as HdS.
  { apply Zdigits2_unique; [lia|].
    replace (n + 53 - 1) with (52 + n) by lia.
    rewrite (pow2_split 52 n), (Z.add_comm n 53), (pow2_split 53 n) by lia.
    unfold S. nia. }
  assert (S / 2 ^ n = Z.pos my) as Hq.
  { unfold S. rewrite Z.div_add by lia. rewrite Z.div_small by lia. lia. }
  assert (0 < S) as HS by (unfold S; nia).
  pose proof (round_shift_cases S n ltac:(lia)) as Hcases.
  rewrite Hq in Hcases.
  pose proof (round_aux_long false S (-52)) as Hround.
  rewrite HdS in Hround. replace (n + 53 - 53) with n in Hround by lia.
  destruct Hround as (m' & e' & Hres & Hm' & He' & Hval); try lia.
  exists m', e'. split; [exact Hres|]. split; [exact Hm'|]. unfold n in He'. lia.
Qed.

(** The Number [1 + Math.floor(x * y)] of the resolver is a valid
    binary64 value. *)
Lemma one_plus_floor_mul_valid mx a y N :
  53 <= a <= 84 ->
  2 ^ 52 <= Z.pos mx < 2 ^ 53 -> Z.pos mx + 2 ^ (a - 32) <= 2 ^ a ->
  valid_binary 53 1024 y = true -> JS.to_Z y = Some N -> 1 <= N ->
  valid_binary 53 1024
    (JS.add (JS.of_Z 1) (JS.floor (JS.mul (S754_finite false mx (- a)) y)))
  = true.
Proof.
  intros Ha Hmx Hgap Hvalid HN Hpos.
  destruct (slot_count_normal y N Hvalid HN Hpos)
    as (my & ey & -> & Hmy & Hey & Hneg & Hnonneg).
  destruct (mul_below mx a my ey Ha Hmx Hgap Hmy Hey)
    as (m' & e' & -> & Hm' & He' & Hlt).
  destruct (Z.lt_ge_cases e' 0) as [Hfrac | Hwhole].
  - rewrite floor_fraction by assumption.
    set (F := Z.pos m' / 2 ^ (- e')).
    pose proof (pow2_pos (- e') ltac:(lia)) as Hpe.
    assert (2 <= 2 ^ (- e')) as H2.
    { change 2 with (2 ^ 1) at 1. apply Z.pow_le_mono_r; lia. }
    assert (0 <= F) as HF0 by (apply Z.div_pos; lia).
    assert (F < 2 ^ 52) as HF52.
    { apply Z.div_lt_upper_bound; [lia|].
      change (2 ^ 53) with (2 * 2 ^ 52) in Hm'. nia. }
    assert (F + 1 < 2 ^ 53) by (change (2 ^ 53) with (2 * 2 ^ 52); lia).
    destruct (Z.eq_dec F 0) as [-> | HFne]; [reflexivity|].
    rewrite add_one_of_Z by lia. apply of_Z_small_valid. lia.
  - rewrite floor_integral by assumption.
    destruct (Z.eq_dec e' 0) as [-> | Hne].
    + destruct (Z.eq_dec (Z.pos m' + 1) (2 ^ 53)) as [Htop | Hlow].
      * assert (m' = Z.to_pos (2 ^ 53 - 1)) as ->.
        { apply Pos2Z.inj. rewrite Z2Pos.id; lia. }
        reflexivity.
      * assert (Zdigits2 (Z.pos m') = 53) as Hd by (apply Zdigits2_unique; lia).
        assert (S754_finite false m' 0 = JS.of_Z (Z.pos m')) as ->.
        { rewrite of_Z_small by lia. rewrite Hd.
          change (2 ^ (53 - 53)) with 1. rewrite Z.mul_1_r. reflexivity. }
        rewrite add_one_of_Z by lia. apply of_Z_small_valid. lia.
    + destruct (add_one_large_normal m' e') as (m2 & e2 & -> & Hm2 & He2);
        try lia.
      { intros Htop.
        destruct (Z.eq_dec e' ey) as [Heq | Hneq]; [|lia].
        rewrite Heq, Z.sub_diag in Hlt. change (2 ^ 0) with 1 in Hlt. lia. }
      apply normal_valid; lia.
Qed.

(** With a slot count [TOTAL_PLAYERS] holding an integer [N >= 1], the
    Number returned by [getImposterPlayer] is positive and normal and holds
    an integer [k] in [1, N]. *)
Lemma getImposterPlayer_normal w roomCode roundKey N :
  1 <= N -> valid_binary 53 1024 (TOTAL_PLAYERS w) = true ->
  JS.to_Z (TOTAL_PLAYERS w) = Some N ->
  exists m e k,
    getImposterPlayer w roomCode roundKey = S754_finite false m e /\
    2 ^ 52 <= Z.pos m < 2 ^ 53 /\ -52 <= e <= 971 /\
    (e < 0 -> Z.pos m = k * 2 ^ (- e)) /\ (0 <= e -> k = Z.pos m * 2 ^ e) /\
    1 <= k <= N.
Proof.
  intros Hpos Hvalid HN. rewrite getImposterPlayer_unfold.
  set (seed := JS.concat (JS.concat roomCode (JS.lit "-imposter-")) roundKey).
  destruct (one_plus_floor_range w seed _ N Hvalid HN Hpos) as (k & Hk & Hrange).
  assert (valid_binary 53 1024
            (JS.add (JS.of_Z 1)
               (JS.floor (JS.mul (seededRandom w seed) (TOTAL_PLAYERS w))))
          = true) as Hv.
  { destruct (seededRandom_cases w seed)
      as [Hz | (mx & a & Hx & Ha & Hmx & Hgap & _)].
    - rewrite Hz, (floor_mul_zero _ N) by assumption. reflexivity.
    - rewrite Hx. apply (one_plus_floor_mul_valid mx a _ N); assumption. }
  destruct (slot_count_normal _ k Hv Hk ltac:(lia))
    as (m & e & Hrepr & Hm & He & Hneg & Hnonneg).
  exists m, e, k. repeat split; try assumption; lia.
Qed.

(** A normal Number holding the integer [n], scaled by 2^52. *)
Lemma normal_scaled m e n :
  -52 <= e ->
  (e < 0 -> Z.pos m = n * 2 ^ (- e)) -> (0 <= e -> n = Z.pos m * 2 ^ e) ->
  Z.pos m * 2 ^ (e + 52) = n * 2 ^ 52.
Proof.
  intros He Hneg Hnonneg. destruct (Z.lt_ge_cases e 0) as [Hlt | Hge].
  - rewrite (Hneg Hlt), <- Z.mul_assoc, <- pow2_split by lia.
    do 2 f_equal. lia.
  - rewrite (Hnonneg Hge), <- Z.mul_assoc, <- pow2_split by lia.
    reflexivity.
Qed.

(** [x < y] is false on positive normal Numbers holding integers
    [a >= b]. *)
Lemma lt_normal_ge mx ex a my ey b :
  2 ^ 52 <= Z.pos mx < 2 ^ 53 -> -52 <= ex ->
  (ex < 0 -> Z.pos mx = a * 2 ^ (- ex)) -> (0 <= ex -> a = Z.pos mx * 2 ^ ex) ->
  2 ^ 52 <= Z.pos my < 2 ^ 53 -> -52 <= ey ->
  (ey < 0 -> Z.pos my = b * 2 ^ (- ey)) -> (0 <= ey -> b = Z.pos my * 2 ^ ey) ->
  b <= a ->
  Host.lt (S754_finite false mx ex) (S754_finite false my ey) = false.
Proof.
  intros Hmx Hex Hxn Hxp Hmy Hey Hyn Hyp Hba.
  pose proof (normal_scaled mx ex a Hex Hxn Hxp) as Hsx.
  pose proof (normal_scaled my ey b Hey Hyn Hyp) as Hsy.
  pose proof (pow2_pos (ex + 52) ltac:(lia)) as Hpx.
  unfold Host.lt, SFltb, SFcompare.
  destruct (Z.compare_spec ex ey) as [Heq | Hlt | Hgt].
  - subst ey. change (Pos.compare_cont Eq mx my) with (Pos.compare mx my).
    destruct (Pos.compare_spec mx my) as [H | H | H]; try reflexivity.
    exfalso. assert (Z.pos mx < Z.pos my) as Hm by lia.
    assert (Z.pos mx * 2 ^ (ex + 52) < Z.pos my * 2 ^ (ex + 52))
      by (apply Z.mul_lt_mono_pos_r; assumption).
    lia.
  - exfalso.
    assert (2 ^ (ey + 52) = 2 ^ (ey - ex) * 2 ^ (ex + 52)) as Hsplit.
    { rewrite <- pow2_split by lia. f_equal. lia. }
    assert (2 <= 2 ^ (ey - ex)) as H2.
    { change 2 with (2 ^ 1) at 1. apply Z.pow_le_mono_r; lia. }
    assert (Z.pos mx * 2 ^ (ex + 52) < 2 ^ 53 * 2 ^ (ex + 52))
      by (apply Z.mul_lt_mono_pos_r; lia).
    assert (2 ^ 52 * 2 ^ (ey + 52) <= Z.pos my * 2 ^ (ey + 52))
      by (apply Z.mul_le_mono_nonneg_r; [apply Z.lt_le_incl, pow2_pos|]; lia).
    change (2 ^ 53) with (2 ^ 52 * 2) in *. nia.
  - reflexivity.
Qed.

Lemma strict_equal_refl_finite s m e :
  Host.strict_equal (S754_finite s m e) (S754_finite s m e) = true.
Proof.
  unfold Host.strict_equal, SFeqb, SFcompare.
  rewrite Z.compare_refl.
  change (Pos.compare_cont Eq m m) with (Pos.compare m m).
  rewrite Pos.compare_refl. destruct s; reflexivity.
Qed.

(** [x === y] holds only for the same Number, or for two zeros. *)
Lemma strict_equal_true x y :
  Host.strict_equal x y = true ->
  x = y \/ (exists s1 s2, x = S754_zero s1 /\ y = S754_zero s2).
Proof.
  unfold Host.strict_equal, SFeqb, SFcompare. intros H.
  destruct x as [sx | sx | | sx mx ex], y as [sy | sy | | sy my ey];
    try discriminate;
    try (destruct sx; discriminate); try (destruct sy; discriminate).
  - right. eauto.
  - left. destruct sx, sy; try discriminate; reflexivity.
  - left. change (Pos.compare_cont Eq mx my) with (Pos.compare mx my) in H.
    destruct sx, sy; try discriminate;
      destruct (Z.compare_spec ex ey); try discriminate;
      destruct (Pos.compare_spec mx my); try discriminate; subst; reflexivity.
Qed.

(** ** [revealRole] *)

Lemma getSecretWord_member w roomCode roundKey :
  exists word,
    getSecretWord w roomCode roundKey = Some word /\ In word wordList.
Proof.
  unfold getSecretWord. rewrite wordIndex_exact.
  set (seed := JS.concat (JS.concat roomCode (JS.lit "-word-")) roundKey).
  pose proof (finalizer_reference_range _ (seedToNumber_range w seed)) as Hh.
  set (h := finalizer_reference (seedToNumber w seed)) in *.
  assert (0 <= h * 50 / 2 ^ 32 < 50) as HF.
  { change (2 ^ 32) with 4294967296. split.
    - apply Z.div_pos; lia.
    - apply Z.div_lt_upper_bound; lia. }
  unfold JS.index. rewrite to_Z_of_Z_nonneg
    by (change (2 ^ 53) with 9007199254740992; lia).
  leb_true.
  destruct (nth_error wordList (Z.to_nat (h * 50 / 2 ^ 32))) as [word|] eqn:Hnth.
  - exists word. split; [reflexivity|]. apply (nth_error_In _ _ Hnth).
  - apply nth_error_None in Hnth. rewrite wordList_length in Hnth. lia.
Qed.

Lemma In_existsb_eqb s l : In s l -> existsb (String.eqb s) l = true.
Proof.
  intros H. apply existsb_exists. exists s. split; [assumption|].
  apply String.eqb_refl.
Qed.

Lemma blend_in_is_no_word : ~ In "Try to blend in!"%string wordList.
Proof.
  intros H. apply In_existsb_eqb in H. vm_compute in H. discriminate H.
Qed.

Lemma role_texts_differ : imposter_role_text <> normal_role_text.
Proof. intros H. vm_compute in H. discriminate H. Qed.

(** What a run of [revealRole] that raises no alert leaves behind. *)
Lemma revealRole_no_alert w roomCode playerNumber p q :
  revealRole w roomCode playerNumber p = (None, q) ->
  roomCode <> [] /\
  player_number_rejected w playerNumber = false /\
  q = (if Host.strict_equal playerNumber
            (getImposterPlayer w roomCode (roundKey w))
       then {| resultDiv_classList :=
                 Host.classList_add "imposter"
                   (Host.classList_remove ["hidden"; "imposter"; "normal"]%string
                      (resultDiv_classList p));
               roleDisplay_text := imposter_role_text;
               wordDisplay_text := Some "Try to blend in!"%string;
               roundInfo_text := roundInfo_text p;
               countdown_text := countdown_text p |}
       else {| resultDiv_classList :=
                 Host.classList_add "normal"
                   (Host.classList_remove ["hidden"; "imposter"; "normal"]%string
                      (resultDiv_classList p));
               roleDisplay_text := normal_role_text;
               wordDisplay_text := getSecretWord w roomCode (roundKey w);
               roundInfo_text := roundInfo_text p;
               countdown_text := countdown_text p |}).
Proof.
  unfold revealRole, player_number_rejected. intros H.
  destruct roomCode as [|c roomCode]; [discriminate|].
  split; [discriminate|].
  destruct (Host.isNaN playerNumber || Host.lt playerNumber (JS.of_Z 1)
            || Host.lt (TOTAL_PLAYERS w) playerNumber); [discriminate|].
  split; [reflexivity|].
  destruct (Host.strict_equal playerNumber
              (getImposterPlayer w (c :: roomCode) (roundKey w)));
    injection H as <-; reflexivity.
Qed.

(** ... and the converse: a non-empty room code and an accepted player
    number raise no alert. *)
Lemma revealRole_accepted w roomCode playerNumber p :
  roomCode <> [] -> player_number_rejected w playerNumber = false ->
  revealRole w roomCode playerNumber p =
  (None,
   if Host.strict_equal playerNumber
        (getImposterPlayer w roomCode (roundKey w))
   then {| resultDiv_classList :=
             Host.classList_add "imposter"
               (Host.classList_remove ["hidden"; "imposter"; "normal"]%string
                  (resultDiv_classList p));
           roleDisplay_text := imposter_role_text;
           wordDisplay_text := Some "Try to blend in!"%string;
           roundInfo_text := roundInfo_text p;
           countdown_text := countdown_text p |}
   else {| resultDiv_classList :=
             Host.classList_add "normal"
               (Host.classList_remove ["hidden"; "imposter"; "normal"]%string
                  (resultDiv_classList p));
           roleDisplay_text := normal_role_text;
           wordDisplay_text := getSecretWord w roomCode (roundKey w);
           roundInfo_text := roundInfo_text p;
           countdown_text := countdown_text p |}).
Proof.
  unfold revealRole, player_number_rejected. intros Hroom Hok.
  destruct roomCode as [|c roomCode]; [contradiction|].
  cbv zeta. rewrite Hok.
  destruct (Host.strict_equal playerNumber
              (getImposterPlayer w (c :: roomCode) (roundKey w)));
    reflexivity.
Qed.

(** X12: a player who is the imposter is never shown the word: the role
    line is the imposter line and the word line is ["Try to blend in!"],
    which is no word of the table and not the secret word of the round. *)
Theorem imposter_is_never_shown_the_word
        (w : world) (roomCode : JS.jsstring) (playerNumber : JS.number)
        (p q : page) :
  revealRole w roomCode playerNumber p = (None, q) ->
  Host.strict_equal playerNumber (getImposterPlayer w roomCode (roundKey w))
    = true ->
  roleDisplay_text q = imposter_role_text /\
  wordDisplay_text q = Some "Try to blend in!"%string /\
  (forall word, In word wordList -> wordDisplay_text q <> Some word) /\
  wordDisplay_text q <> getSecretWord w roomCode (roundKey w).
Proof.
  intros Hrun Himp.
  destruct (revealRole_no_alert _ _ _ _ _ Hrun) as (_ & _ & ->).
  rewrite Himp. simpl roleDisplay_text. simpl wordDisplay_text.
  split; [reflexivity|]. split; [reflexivity|].
  assert (forall word, In word wordList ->
            Some "Try to blend in!"%string <> Some word) as Hno.
  { intros word Hin Heq. apply Some_eq_inv in Heq. subst word.
    exact (blend_in_is_no_word Hin). }
  split; [exact Hno|].
  destruct (getSecretWord_member w roomCode (roundKey w)) as (word & -> & Hin).
  apply Hno. exact Hin.
Qed.

(** X13: a player who is not the imposter is shown the secret word of the
    round, which is a word of the table (never [undefined]), under the
    not-the-imposter line. *)
Theorem other_players_are_shown_the_word
        (w : world) (roomCode : JS.jsstring) (playerNumber : JS.number)
        (p q : page) :
  revealRole w roomCode playerNumber p = (None, q) ->
  Host.strict_equal playerNumber (getImposterPlayer w roomCode (roundKey w))
    = false ->
  roleDisplay_text q = normal_role_text /\
  exists word,
    wordDisplay_text q = Some word /\ In word wordList /\
    getSecretWord w roomCode (roundKey w) = Some word.
Proof.
  intros Hrun Hnot.
  destruct (revealRole_no_alert _ _ _ _ _ Hrun) as (_ & _ & ->).
  rewrite Hnot. simpl roleDisplay_text. simpl wordDisplay_text.
  split; [reflexivity|].
  destruct (getSecretWord_member w roomCode (roundKey w)) as (word & Hw & Hin).
  exists word. auto.
Qed.

Lemma imposter_line_means_imposter w roomCode playerNumber p q :
  revealRole w roomCode playerNumber p = (None, q) ->
  roleDisplay_text q = imposter_role_text ->
  Host.strict_equal playerNumber (getImposterPlayer w roomCode (roundKey w))
    = true.
Proof.
  intros Hrun Hline.
  destruct (revealRole_no_alert _ _ _ _ _ Hrun) as (_ & _ & ->).
  destruct (Host.strict_equal playerNumber
              (getImposterPlayer w roomCode (roundKey w))); [reflexivity|].
  simpl in Hline. symmetry in Hline. destruct (role_texts_differ Hline).
Qed.

Lemma zero_is_rejected w s : player_number_rejected w (S754_zero s) = true.
Proof. reflexivity. Qed.

(** X14: in one world and one room, at most one player number is told to
    be the imposter: two player numbers that both get the imposter line
    are the same Number. *)
Theorem imposter_is_unique
        (w : world) (roomCode : JS.jsstring) (playerNumber1 playerNumber2 : JS.number)
        (p1 p2 q1 q2 : page) :
  revealRole w roomCode playerNumber1 p1 = (None, q1) ->
  roleDisplay_text q1 = imposter_role_text ->
  revealRole w roomCode playerNumber2 p2 = (None, q2) ->
  roleDisplay_text q2 = imposter_role_text ->
  playerNumber1 = playerNumber2.
Proof.
  intros Hrun1 Hline1 Hrun2 Hline2.
  pose proof (imposter_line_means_imposter _ _ _ _ _ Hrun1 Hline1) as H1.
  pose proof (imposter_line_means_imposter _ _ _ _ _ Hrun2 Hline2) as H2.
  destruct (revealRole_no_alert _ _ _ _ _ Hrun1) as (_ & Hok1 & _).
  destruct (revealRole_no_alert _ _ _ _ _ Hrun2) as (_ & Hok2 & _).
  apply strict_equal_true in H1. apply strict_equal_true in H2.
  destruct H1 as [H1 | (s1 & s2 & H1 & _)];
    [| subst playerNumber1; rewrite zero_is_rejected in Hok1; discriminate].
  destruct H2 as [H2 | (s1 & s2 & H2 & _)];
    [| subst playerNumber2; rewrite zero_is_rejected in Hok2; discriminate].
  congruence.
Qed.

Lemma of_Z_one_normal :
  JS.of_Z 1 = S754_finite false (Z.to_pos (2 ^ 52)) (-52).
Proof. reflexivity. Qed.

(** X15: with [TOTAL_PLAYERS] holding an integer [N >= 1], every round of
    every room has an imposter among the accepted player numbers: the
    Number returned by [getImposterPlayer] holds an integer in [1, N],
    passes the checks of [revealRole] and gets the imposter line. *)
Theorem some_player_is_the_imposter
        (w : world) (roomCode : JS.jsstring) (N : Z) (p : page) :
  roomCode <> [] -> 1 <= N ->
  valid_binary 53 1024 (TOTAL_PLAYERS w) = true ->
  JS.to_Z (TOTAL_PLAYERS w) = Some N ->
  exists (k : Z) (q : page),
    JS.to_Z (getImposterPlayer w roomCode (roundKey w)) = Some k /\
    1 <= k <= N /\
    revealRole w roomCode (getImposterPlayer w roomCode (roundKey w)) p
      = (None, q) /\
    roleDisplay_text q = imposter_role_text.
Proof.
  intros Hroom Hpos Hvalid HN.
  destruct (getImposterPlayer_normal w roomCode (roundKey w) N Hpos Hvalid HN)
    as (m & e & k & Himp & Hm & He & Hneg & Hnonneg & Hk).
  destruct (slot_count_normal _ N Hvalid HN Hpos)
    as (mt & et & Htot & Hmt & Het & Htneg & Htnonneg).
  assert (JS.to_Z (getImposterPlayer w roomCode (roundKey w)) = Some k) as HtoZ.
  { rewrite Himp. unfold JS.to_Z, cond_Zopp.
    destruct (Z.leb_spec 0 e) as [Hge | Hlt].
    - rewrite (Hnonneg Hge). reflexivity.
    - pose proof (pow2_pos (- e) ltac:(lia)).
      rewrite (Hneg Hlt), Z.mod_mul, Z.eqb_refl, Z.div_mul by lia.
      reflexivity. }
  assert (player_number_rejected w (getImposterPlayer w roomCode (roundKey w))
          = false) as Hok.
  { unfold player_number_rejected. rewrite Himp, Htot, of_Z_one_normal.
    simpl Host.isNaN. rewrite orb_false_l.
    rewrite (lt_normal_ge m e k (Z.to_pos (2 ^ 52)) (-52) 1);
      try assumption; try lia; try (simpl; lia).
    rewrite orb_false_l.
    apply (lt_normal_ge mt et N m e k); try assumption; lia. }
  exists k.
  assert (Host.strict_equal (getImposterPlayer w roomCode (roundKey w))
            (getImposterPlayer w roomCode (roundKey w)) = true) as Hself
    by (rewrite Himp; apply strict_equal_refl_finite).
  rewrite revealRole_accepted by assumption. rewrite Hself.
  eexists. split; [exact HtoZ|]. split; [exact Hk|].
  split; reflexivity.
Qed.

(** X16: two players whose clocks read in the same window of 120000
    milliseconds agree on the word of a room, and on its imposter when
    their player counts agree. *)
Theorem same_window_same_game
        (w1 w2 : world) (roomCode : JS.jsstring) :
  Date_now w1 / 120000 = Date_now w2 / 120000 ->
  getSecretWord w1 roomCode (roundKey w1) =
    getSecretWord w2 roomCode (roundKey w2) /\
  (TOTAL_PLAYERS w1 = TOTAL_PLAYERS w2 ->
   getImposterPlayer w1 roomCode (roundKey w1) =
     getImposterPlayer w2 roomCode (roundKey w2)).
Proof.
  intros Hwin. rewrite <- !roundNumber_of_milliseconds in Hwin.
  assert (roundKey w1 = roundKey w2) as Hkey by (unfold roundKey; rewrite Hwin; reflexivity).
  rewrite Hkey. split.
  - unfold getSecretWord, wordIndex, seededRandom, seedToNumber. reflexivity.
  - intros Hplayers. unfold getImposterPlayer, seededRandom, seedToNumber.
    rewrite Hplayers. reflexivity.
Qed.

(** ** The accepted player numbers *)

(** A negative integer above -2^53 is a negative finite Number. *)
Lemma of_Z_negative k :
  0 < k < 2 ^ 53 ->
  JS.of_Z (- k) =
  S754_finite true (Z.to_pos (k * 2 ^ (53 - Zdigits2 k))) (Zdigits2 k - 53).
Proof.
  intros [Hk Hlt]. pose proof (digits_small k ltac:(lia)) as Hd53.
  destruct k as [|p|p]; try lia.
  unfold JS.of_Z. change (- Z.pos p) with (Z.neg p).
  unfold binary_normalize, binary_round.
  change (Z.pos (digits2_pos p)) with (Zdigits2 (Z.pos p)).
  rewrite fexp_normal by lia. rewrite Z.add_0_r.
  pose proof (pow2_pos (53 - Zdigits2 (Z.pos p)) ltac:(lia)) as Hp.
  destruct (Z.eq_dec (Zdigits2 (Z.pos p)) 53) as [Heq | Hne].
  - rewrite shl_align_none by lia.
    rewrite round_aux_short by lia.
    rewrite Heq. change (2 ^ (53 - 53)) with 1. rewrite Z.mul_1_r. reflexivity.
  - rewrite shl_align_shift by lia.
    replace (0 - (Zdigits2 (Z.pos p) - 53)) with (53 - Zdigits2 (Z.pos p)) by lia.
    rewrite Z2Pos.id by lia.
    rewrite round_aux_short;
      rewrite ?digits_shift by lia; try lia.
    reflexivity.
Qed.

(** A positive safe integer, as a normal Number. *)
Lemma of_Z_small_normal k :
  0 < k < 2 ^ 53 ->
  exists m e,
    JS.of_Z k = S754_finite false m e /\
    2 ^ 52 <= Z.pos m < 2 ^ 53 /\ -52 <= e <= 0 /\
    (e < 0 -> Z.pos m = k * 2 ^ (- e)) /\ (0 <= e -> k = Z.pos m * 2 ^ e).
Proof.
  intros Hk. pose proof (digits_small k Hk) as Hd.
  pose proof (of_Z_small_mantissa k Hk) as Hm.
  exists (Z.to_pos (k * 2 ^ (53 - Zdigits2 k))), (Zdigits2 k - 53).
  rewrite Z2Pos.id by lia.
  split; [apply of_Z_small; assumption|]. split; [exact Hm|]. split; [lia|].
  split.
  - intros _. do 2 f_equal. lia.
  - intros He. replace (Zdigits2 k) with 53 by lia.
    change (2 ^ (53 - 53)) with 1. lia.
Qed.

(** [x < y] is true on positive normal Numbers holding integers
    [a < b]. *)
Lemma lt_normal_lt mx ex a my ey b :
  2 ^ 52 <= Z.pos mx < 2 ^ 53 -> -52 <= ex ->
  (ex < 0 -> Z.pos mx = a * 2 ^ (- ex)) -> (0 <= ex -> a = Z.pos mx * 2 ^ ex) ->
  2 ^ 52 <= Z.pos my < 2 ^ 53 -> -52 <= ey ->
  (ey < 0 -> Z.pos my = b * 2 ^ (- ey)) -> (0 <= ey -> b = Z.pos my * 2 ^ ey) ->
  a < b ->
  Host.lt (S754_finite false mx ex) (S754_finite false my ey) = true.
Proof.
  intros Hmx Hex Hxn Hxp Hmy Hey Hyn Hyp Hab.
  pose proof (normal_scaled mx ex a Hex Hxn Hxp) as Hsx.
  pose proof (normal_scaled my ey b Hey Hyn Hyp) as Hsy.
  pose proof (pow2_pos (ey + 52) ltac:(lia)) as Hpy.
  unfold Host.lt, SFltb, SFcompare.
  destruct (Z.compare_spec ex ey) as [Heq | Hlt | Hgt].
  - subst ey. change (Pos.compare_cont Eq mx my) with (Pos.compare mx my).
    destruct (Pos.compare_spec mx my) as [H | H | H]; try reflexivity; exfalso.
    + subst my. lia.
    + assert (Z.pos my < Z.pos mx) as Hm by lia.
      assert (Z.pos my * 2 ^ (ex + 52) < Z.pos mx * 2 ^ (ex + 52))
        by (apply Z.mul_lt_mono_pos_r; assumption).
      lia.
  - reflexivity.
  - exfalso.
    assert (2 ^ (ex + 52) = 2 ^ (ex - ey) * 2 ^ (ey + 52)) as Hsplit.
    { rewrite <- pow2_split by lia. f_equal. lia. }
    assert (2 <= 2 ^ (ex - ey)) as H2.
    { change 2 with (2 ^ 1) at 1. apply Z.pow_le_mono_r; lia. }
    assert (Z.pos my * 2 ^ (ey + 52) < 2 ^ 53 * 2 ^ (ey + 52))
      by (apply Z.mul_lt_mono_pos_r; lia).
    assert (2 ^ 52 * 2 ^ (ex + 52) <= Z.pos mx * 2 ^ (ex + 52))
      by (apply Z.mul_le_mono_nonneg_r; [apply Z.lt_le_incl, pow2_pos|]; lia).
    change (2 ^ 53) with (2 ^ 52 * 2) in *. nia.
Qed.

(** The order of two positive safe integers, read on their Numbers. *)
Lemma lt_of_Z a b :
  0 < a < 2 ^ 53 -> 0 < b < 2 ^ 53 ->
  Host.lt (JS.of_Z a) (JS.of_Z b) = (a <? b).
Proof.
  intros Ha Hb.
  destruct (of_Z_small_normal a Ha) as (ma & ea & -> & Hma & Hea & Han & Hap).
  destruct (of_Z_small_normal b Hb) as (mb & eb & -> & Hmb & Heb & Hbn & Hbp).
  destruct (Z.ltb_spec a b) as [Hlt | Hge].
  - apply (lt_normal_lt ma ea a mb eb b); try assumption; lia.
  - apply (lt_normal_ge ma ea a mb eb b); try assumption; lia.
Qed.

(** X17: with [TOTAL_PLAYERS] holding a safe integer [N >= 1], the checks
    of [revealRole] accept the player number [k] exactly when
    [1 <= k <= N]. *)
Theorem revealRole_accepts_one_to_N
        (w : world) (roomCode : JS.jsstring) (N k : Z) (p : page) :
  roomCode <> [] -> 1 <= N < 2 ^ 53 -> - 2 ^ 53 < k < 2 ^ 53 ->
  TOTAL_PLAYERS w = JS.of_Z N ->
  (fst (revealRole w roomCode (JS.of_Z k) p) = None <-> 1 <= k <= N).
Proof.
  intros Hroom HN Hk Hplayers.
  assert (player_number_rejected w (JS.of_Z k) = negb ((1 <=? k) && (k <=? N)))
    as Hcheck.
  { unfold player_number_rejected. rewrite Hplayers.
    destruct (Z.lt_trichotomy k 0) as [Hneg | [-> | Hposk]].
    - replace k with (- (- k)) at 1 2 by lia.
      rewrite of_Z_negative by lia.
      replace (1 <=? k) with false by (symmetry; apply Z.leb_gt; lia).
      reflexivity.
    - replace (1 <=? 0) with false by reflexivity.
      destruct (of_Z_small_normal N ltac:(lia)) as (m & e & -> & _).
      reflexivity.
    - assert (Host.isNaN (JS.of_Z k) = false) as ->.
      { destruct (of_Z_small_normal k ltac:(lia)) as (m & e & -> & _).
        reflexivity. }
      rewrite !lt_of_Z by lia.
      destruct (Z.ltb_spec k 1), (Z.ltb_spec N k), (Z.leb_spec 1 k),
        (Z.leb_spec k N); try lia; reflexivity. }
  split.
  - intros Hrun.
    destruct (revealRole w roomCode (JS.of_Z k) p) as [a q] eqn:Erun.
    simpl in Hrun. subst a.
    destruct (revealRole_no_alert _ _ _ _ _ Erun) as (_ & Hok & _).
    rewrite Hcheck in Hok. apply negb_false_iff, andb_true_iff in Hok.
    destruct Hok as [H1 H2]. apply Z.leb_le in H1. apply Z.leb_le in H2. lia.
  - intros Hrange. rewrite revealRole_accepted; [reflexivity | assumption |].
    rewrite Hcheck. apply negb_false_iff, andb_true_iff.
    split; apply Z.leb_le; lia.
Qed.

(** ** The class list of the result box *)

Lemma classList_remove_In c tokens classList :
  In c (Host.classList_remove tokens classList) <->
  In c classList /\ ~ In c tokens.
Proof.
  unfold Host.classList_remove. rewrite filter_In. split.
  - intros [Hin Hkeep]. split; [assumption|]. intros Htok.
    apply negb_true_iff in Hkeep.
    rewrite (In_existsb_eqb c tokens Htok) in Hkeep. discriminate.
  - intros [Hin Hno]. split; [assumption|]. apply negb_true_iff.
    destruct (existsb (String.eqb c) tokens) eqn:E; [|reflexivity].
    apply existsb_exists in E. destruct E as (t & Ht & Heq).
    apply String.eqb_eq in Heq. subst t. contradiction.
Qed.

Lemma classList_add_In c token classList :
  In c (Host.classList_add token classList) <-> c = token \/ In c classList.
Proof.
  unfold Host.classList_add.
  destruct (existsb (String.eqb token) classList) eqn:E.
  - split; [auto|]. intros [-> | H]; [|assumption].
    apply existsb_exists in E. destruct E as (t & Ht & Heq).
    apply String.eqb_eq in Heq. subst t. assumption.
  - rewrite in_app_iff. simpl. split.
    + intros [H | [H | []]]; auto.
    + intros [H | H]; auto.
Qed.

(** X18: after a run of [revealRole] that raises no alert the result box
    is never hidden and carries exactly one of the classes [imposter] and
    [normal], the one of the role shown; every other class is kept as it
    was. *)
Theorem result_box_classes
        (w : world) (roomCode : JS.jsstring) (playerNumber : JS.number)
        (p q : page) :
  revealRole w roomCode playerNumber p = (None, q) ->
  ~ In "hidden"%string (resultDiv_classList q) /\
  (In "imposter"%string (resultDiv_classList q) <->
   roleDisplay_text q = imposter_role_text) /\
  (In "normal"%string (resultDiv_classList q) <->
   roleDisplay_text q = normal_role_text) /\
  (forall c : string,
      c <> "hidden"%string -> c <> "imposter"%string -> c <> "normal"%string ->
      (In c (resultDiv_classList q) <-> In c (resultDiv_classList p))).
Proof.
  intros Hrun.
  destruct (revealRole_no_alert _ _ _ _ _ Hrun) as (_ & _ & ->).
  pose proof role_texts_differ as Hdiff.
  destruct (Host.strict_equal playerNumber
              (getImposterPlayer w roomCode (roundKey w)));
    simpl resultDiv_classList; simpl roleDisplay_text;
    repeat split;
    rewrite ?classList_add_In, ?classList_remove_In; simpl;
    try (intros; tauto); try (intros; intuition congruence).
Qed.

(** ** The theorems on [revealRole] at the room [PINKFISH]

    At clock reading 0 with six players, player 1 of the room [PINKFISH] is
    the imposter and player 2 is shown the word. *)

Lemma imposter_is_never_shown_the_word_witness :
  let w := initial_world 0 in
  let q := snd (revealRole w (JS.lit "PINKFISH") (JS.of_Z 1) example_page) in
  roleDisplay_text q = imposter_role_text /\
  wordDisplay_text q = Some "Try to blend in!"%string /\
  (forall word, In word wordList -> wordDisplay_text q <> Some word) /\
  wordDisplay_text q <> getSecretWord w (JS.lit "PINKFISH") (roundKey w).
Proof.
  intros w q.
  apply (imposter_is_never_shown_the_word
           w (JS.lit "PINKFISH") (JS.of_Z 1) example_page q);
    vm_compute; reflexivity.
Defined.

Lemma other_players_are_shown_the_word_witness :
  let w := initial_world 0 in
  let q := snd (revealRole w (JS.lit "PINKFISH") (JS.of_Z 2) example_page) in
  roleDisplay_text q = normal_role_text /\
  exists word,
    wordDisplay_text q = Some word /\ In word wordList /\
    getSecretWord w (JS.lit "PINKFISH") (roundKey w) = Some word.
Proof.
  intros w q.
  apply (other_players_are_shown_the_word
           w (JS.lit "PINKFISH") (JS.of_Z 2) example_page q);
    vm_compute; reflexivity.
Defined.

Lemma imposter_is_unique_witness :
  JS.of_Z 1 = JS.div (JS.of_Z 2) (JS.of_Z 2).
Proof.
  apply (imposter_is_unique
           (initial_world 0) (JS.lit "PINKFISH")
           (JS.of_Z 1) (JS.div (JS.of_Z 2) (JS.of_Z 2))
           example_page example_page
           (snd (revealRole (initial_world 0) (JS.lit "PINKFISH")
                   (JS.of_Z 1) example_page))
           (snd (revealRole (initial_world 0) (JS.lit "PINKFISH")
                   (JS.div (JS.of_Z 2) (JS.of_Z 2)) example_page)));
    vm_compute; reflexivity.
Defined.

Lemma some_player_is_the_imposter_witness :
  exists (k : Z) (q : page),
    JS.to_Z (getImposterPlayer (initial_world 0) (JS.lit "PINKFISH")
               (roundKey (initial_world 0))) = Some k /\
    1 <= k <= 6 /\
    revealRole (initial_world 0) (JS.lit "PINKFISH")
      (getImposterPlayer (initial_world 0) (JS.lit "PINKFISH")
         (roundKey (initial_world 0))) example_page = (None, q) /\
    roleDisplay_text q = imposter_role_text.
Proof.
  apply (some_player_is_the_imposter
           (initial_world 0) (JS.lit "PINKFISH") 6 example_page);
    [discriminate | lia | vm_compute; reflexivity | vm_compute; reflexivity].
Defined.

Lemma same_window_same_game_witness :
  getSecretWord (initial_world 0) (JS.lit "PINKFISH")
    (roundKey (initial_world 0)) =
  getSecretWord (initial_world 119999) (JS.lit "PINKFISH")
    (roundKey (initial_world 119999)) /\
  (TOTAL_PLAYERS (initial_world 0) = TOTAL_PLAYERS (initial_world 119999) ->
   getImposterPlayer (initial_world 0) (JS.lit "PINKFISH")
     (roundKey (initial_world 0)) =
   getImposterPlayer (initial_world 119999) (JS.lit "PINKFISH")
     (roundKey (initial_world 119999))).
Proof.
  apply (same_window_same_game
           (initial_world 0) (initial_world 119999) (JS.lit "PINKFISH")).
  reflexivity.
Defined.

Lemma revealRole_accepts_one_to_N_witness :
  fst (revealRole (initial_world 0) (JS.lit "PINKFISH") (JS.of_Z 7)
         example_page) = None <-> 1 <= 7 <= 6.
Proof.
  apply (revealRole_accepts_one_to_N
           (initial_world 0) (JS.lit "PINKFISH") 6 7 example_page);
    [discriminate | lia | lia | reflexivity].
Defined.

Lemma result_box_classes_witness :
  let p := example_page in
  let q := snd (revealRole (initial_world 0) (JS.lit "PINKFISH") (JS.of_Z 2) p) in
  ~ In "hidden"%string (resultDiv_classList q) /\
  (In "imposter"%string (resultDiv_classList q) <->
   roleDisplay_text q = imposter_role_text) /\
  (In "normal"%string (resultDiv_classList q) <->
   roleDisplay_text q = normal_role_text) /\
  (forall c : string,
      c <> "hidden"%string -> c <> "imposter"%string -> c <> "normal"%string ->
      (In c (resultDiv_classList q) <-> In c (resultDiv_classList p))).
Proof.
  intros p q.
  apply (result_box_classes
           (initial_world 0) (JS.lit "PINKFISH") (JS.of_Z 2) p q).
  vm_compute; reflexivity.
Defined.

(** ** [updateTimer] *)

(** The countdown of the script is positive at every clock reading, and
    below 240 also before the epoch. *)
Lemma getSecondsUntilNextRound_always w :
  1 <= getSecondsUntilNextRound w <= 239.
Proof.
  unfold getSecondsUntilNextRound, secondsUntilNextRoundAt, ROUND_LENGTH_SECONDS.
  pose proof (Z.rem_bound_abs (currentUnixSeconds w) 120 ltac:(lia)). lia.
Qed.

(** The string of [updateTimer] as one digit, a colon and two digits. *)
Lemma timeString_format r :
  1 <= r <= 239 ->
  timeString r =
  (decimal_digit (r / 60) ++ ":" ++
   decimal_digit (r mod 60 / 10) ++ decimal_digit (r mod 10))%string.
Proof.
  intros Hr.
  assert (forallb
            (fun n =>
               String.eqb (timeString (Z.of_nat n))
                 (decimal_digit (Z.of_nat n / 60) ++ ":" ++
                  decimal_digit (Z.of_nat n mod 60 / 10) ++
                  decimal_digit (Z.of_nat n mod 10))%string)
            (seq 1 239) = true) as Hall by (vm_compute; reflexivity).
  rewrite forallb_forall in Hall.
  specialize (Hall (Z.to_nat r)).
  rewrite Z2Nat.id in Hall by lia.
  apply String.eqb_eq. apply Hall. apply in_seq. lia.
Qed.

(** X19: at every clock reading the countdown line reads
    ["Next round in: M:SS"]: one digit of minutes, a colon and the seconds
    on two digits, with [60 * M + SS] the countdown. *)
Theorem countdown_line_format :
  forall (w : world) (p : page),
    let r := getSecondsUntilNextRound w in
    countdown_text (updateTimer w p) =
      ("Next round in: " ++ decimal_digit (r / 60) ++ ":" ++
       decimal_digit (r mod 60 / 10) ++ decimal_digit (r mod 10))%string /\
    0 <= r / 60 <= 3 /\ 0 <= r mod 60 <= 59 /\
    60 * (r / 60) + r mod 60 = r.
Proof.
  intros w p r. pose proof (getSecondsUntilNextRound_always w) as Hr.
  fold r in Hr.
  split.
  - unfold updateTimer. cbn [countdown_text].
    fold r. rewrite timeString_format by assumption. reflexivity.
  - clearbody r.
    pose proof (Z.div_mod r 60 ltac:(lia)).
    pose proof (Z.mod_pos_bound r 60 ltac:(lia)).
    assert (0 <= r / 60) by (apply Z.div_pos; lia).
    assert (r / 60 < 4) by (apply Z.div_lt_upper_bound; lia).
    lia.
Qed.

(** ** A player count that is not a number *)

Lemma getImposterPlayer_NaN w roomCode roundKey :
  TOTAL_PLAYERS w = S754_nan ->
  getImposterPlayer w roomCode roundKey = S754_nan.
Proof.
  intros Hnan. unfold getImposterPlayer. rewrite Hnan.
  generalize (seededRandom w
                (JS.concat (JS.concat roomCode (JS.lit "-imposter-")) roundKey)).
  intros r. destruct r; reflexivity.
Qed.

Lemma strict_equal_NaN x : Host.strict_equal x S754_nan = false.
Proof. destruct x as [s | s | | s m e]; try destruct s; reflexivity. Qed.

(** X20: when [updateTotalPlayers] stores NaN (a slider value that
    [parseInt] cannot read), the upper check of [revealRole] never fires
    and no player is the imposter: every player number that is a Number not
    below 1 is accepted and shown the secret word under the
    not-the-imposter line. *)
Theorem no_imposter_when_player_count_is_NaN
        (w : world) (roomCode : JS.jsstring) (playerNumber : JS.number)
        (p : page) :
  roomCode <> [] ->
  Host.isNaN playerNumber = false ->
  Host.lt playerNumber (JS.of_Z 1) = false ->
  let w' := updateTotalPlayers S754_nan w in
  exists q : page,
    revealRole w' roomCode playerNumber p = (None, q) /\
    roleDisplay_text q = normal_role_text /\
    wordDisplay_text q = getSecretWord w roomCode (roundKey w).
Proof.
  intros Hroom Hnum Hlow w'.
  assert (player_number_rejected w' playerNumber = false) as Hok.
  { unfold player_number_rejected. rewrite Hnum, Hlow.
    unfold w', updateTotalPlayers. cbn [TOTAL_PLAYERS].
    unfold Host.lt, SFltb. reflexivity. }
  rewrite revealRole_accepted by assumption.
  rewrite (getImposterPlayer_NaN w') by reflexivity.
  rewrite strict_equal_NaN.
  eexists. split; [reflexivity|]. split; [reflexivity|].
  cbn [wordDisplay_text].
  unfold getSecretWord, wordIndex, seededRandom, seedToNumber, roundKey,
    getCurrentRoundNumber, currentUnixSeconds. reflexivity.
Qed.

Lemma no_imposter_when_player_count_is_NaN_witness :
  let w' := updateTotalPlayers S754_nan (initial_world 0) in
  exists q : page,
    revealRole w' (JS.lit "PINKFISH") (JS.of_Z 1000) example_page = (None, q) /\
    roleDisplay_text q = normal_role_text /\
    wordDisplay_text q =
      getSecretWord (initial_world 0) (JS.lit "PINKFISH")
        (roundKey (initial_world 0)).
Proof.
  apply (no_imposter_when_player_count_is_NaN
           (initial_world 0) (JS.lit "PINKFISH") (JS.of_Z 1000) example_page);
    [discriminate | reflexivity | vm_compute; reflexivity].
Defined.

(** ** The round line of [updateTimer] *)

Lemma string_length_append (s t : string) :
  String.length (s ++ t) = (String.length s + String.length t)%nat.
Proof. induction s as [|a s IH]; simpl; [reflexivity | rewrite IH; reflexivity]. Qed.

Lemma string_append_cancel_r (s1 s2 t : string) :
  (s1 ++ t = s2 ++ t)%string -> s1 = s2.
Proof.
  revert s2. induction s1 as [|a s1 IH]; intros [|b s2] Heq.
  - reflexivity.
  - exfalso. apply (f_equal String.length) in Heq.
    simpl in Heq. rewrite string_length_append in Heq. lia.
  - exfalso. apply (f_equal String.length) in Heq.
    simpl in Heq. rewrite string_length_append in Heq. lia.
  - simpl in Heq. injection Heq as -> Heq. f_equal. apply IH. exact Heq.
Qed.

(** X21: the round line written by [updateTimer] identifies the round: two
    runs write the same line exactly when their round numbers are the
    same, that is, when their clocks read in the same window of 120000
    milliseconds. *)
Theorem round_line_identifies_round :
  forall (w1 w2 : world) (p1 p2 : page),
    roundInfo_text (updateTimer w1 p1) = roundInfo_text (updateTimer w2 p2)
    <-> Date_now w1 / 120000 = Date_now w2 / 120000.
Proof.
  intros w1 w2 p1 p2. rewrite <- !roundNumber_of_milliseconds.
  unfold updateTimer. cbn [roundInfo_text].
  split.
  - intros Heq.
    change (("Round " ++
             (Host.String_of_integer (getCurrentRoundNumber w1) ++
              " (resets every 2 minutes)"))%string =
            ("Round " ++
             (Host.String_of_integer (getCurrentRoundNumber w2) ++
              " (resets every 2 minutes)"))%string) in Heq.
    cbn [String.append] in Heq.
    injection Heq as Heq.
    apply string_append_cancel_r in Heq.
    apply String_of_integer_inj. exact Heq.
  - intros ->. reflexivity.
Qed.
